(** * Opik TypeScript REST client: schema engine, request executor and the
      generated [SystemUsage] endpoint methods.

    The generated call sites ([SystemUsage], the enum and object schema
    constants) are embedded from the TypeScript sources.  The runtime they
    delegate to ([core.serialization], [core.fetcher], [core.Supplier]) is
    embedded from its specification; every such definition says so. *)

From Stdlib Require Import ZArith Lia Floats.
From stdpp Require Import base option list strings gmap fin_maps pretty.

Set Warnings "-register-all,-notation-for-abbreviation".
Set Default Proof Using "Type".

Open Scope string_scope.
Open Scope nat_scope.
Open Scope list_scope.

(* ===================================================================== *)
(** ** Wire values and typed values                                       *)
(* ===================================================================== *)

Module Serialization.

(** Modelled from the spec: the schema engine ([core.serialization] is not
    among the sources; the generated files only call [enum_], [object],
    [number] and [parseOrThrow]). *)

(** Untyped wire payloads (what [JSON.parse] hands to a schema).  Numbers are
    carried verbatim by every schema, so an integer carrier is enough here;
    objects are finite maps from keys to values. *)
Inductive Raw : Type :=
  | RNull
  | RBool (b : bool)
  | RNum (n : Z)
  | RStr (s : string)
  | RList (items : list Raw)
  | RObj (entries : gmap string Raw).

(** Typed in-memory values.  An object keeps the parsed declared fields and,
    beside them, the bag of unrecognized keys retained in passthrough mode; a
    union value is either the matched alternative (by declaration position) or
    the unmatched raw value kept opaque. *)
Inductive Typed : Type :=
  | TString (s : string)
  | TNumber (n : Z)
  | TBoolean (b : bool)
  | TEnum (s : string)
  | TObject (fields : gmap string Typed) (extra : gmap string Raw)
  | TList (items : list Typed)
  | TMember (alternative : nat) (t : Typed)
  | TOpaque (r : Raw).

(** Schema nodes.  An object field is a pair [(optional, schema)]. *)
Inductive Schema : Type :=
  | SString
  | SNumber
  | SBoolean
  | SEnum (values : list string)
  | SObject (fields : gmap string (bool * Schema))
  | SList (item : Schema)
  | SUnion (alternatives : list Schema).

(** The three strictness options and the breadcrumb prefix, named as the
    option object the generated call sites pass to [parseOrThrow]. *)
Inductive UnrecognizedObjectKeys : Type := strict | passthrough.

Record SchemaOptions : Type := mkSchemaOptions {
  unrecognizedObjectKeys : UnrecognizedObjectKeys;
  allowUnrecognizedUnionMembers : bool;
  allowUnrecognizedEnumValues : bool;
  breadcrumbsPrefix : list string
}.

(** A validation failure is a list of (breadcrumb, message) pairs. *)
Definition ValidationError : Type := list (list string * string).

Inductive MaybeValid (A : Type) : Type :=
  | Valid (value : A)
  | Invalid (errors : ValidationError).
Arguments Valid {A} value.
Arguments Invalid {A} errors.

Definition isValid {A} (r : MaybeValid A) : bool :=
  match r with Valid _ => true | Invalid _ => false end.

Definition validValue {A} (r : MaybeValid A) : option A :=
  match r with Valid a => Some a | Invalid _ => None end.

Definition issues {A} (r : MaybeValid A) : ValidationError :=
  match r with Valid _ => [] | Invalid e => e end.

(** The context handed to a child node: the breadcrumb grows by one name, the
    strictness flags are passed down as they are. *)
Definition descend (opts : SchemaOptions) (name : string) : SchemaOptions :=
  {| unrecognizedObjectKeys := unrecognizedObjectKeys opts;
     allowUnrecognizedUnionMembers := allowUnrecognizedUnionMembers opts;
     allowUnrecognizedEnumValues := allowUnrecognizedEnumValues opts;
     breadcrumbsPrefix := breadcrumbsPrefix opts ++ [name] |}.

Definition failure {A} (opts : SchemaOptions) (message : string) : MaybeValid A :=
  Invalid [(breadcrumbsPrefix opts, message)].

(** All field results of one object, gathered in one pass: either every field
    is valid, or the failures of all invalid fields are reported together. *)
Definition gatherFields {A} (results : gmap string (MaybeValid A))
    : MaybeValid (gmap string A) :=
  if bool_decide (map_Forall (λ _ r, isValid r = true) results)
  then Valid (omap validValue results)
  else Invalid (map_fold (λ _ r acc, issues r ++ acc) [] results).

Definition gatherItems {A} (results : list (MaybeValid A)) : MaybeValid (list A) :=
  if forallb isValid results
  then Valid (omap validValue results)
  else Invalid (concat (issues <$> results)).

Definition isPassthrough (opts : SchemaOptions) : bool :=
  match unrecognizedObjectKeys opts with passthrough => true | strict => false end.

Definition knownEnumValue (values : list string) (s : string) : bool :=
  bool_decide (s ∈ values).

(** The results for the declared fields of an object, by key: a present
    value goes through [step] under the child context, an absent optional
    field yields nothing, an absent required field is a failure at that
    field. *)
Definition fieldResults {A B} (opts : SchemaOptions)
    (step : Schema → A → SchemaOptions → MaybeValid B)
    (fields : gmap string (bool * Schema)) (entries : gmap string A)
    : gmap string (MaybeValid B) :=
  map_imap (λ key (field : bool * Schema),
    match entries !! key with
    | Some v => Some (step field.2 v (descend opts key))
    | None =>
        if field.1 then None
        else Some (failure (descend opts key) "Missing required key")
    end) fields.

(** The results for the items of a list, each under the child context named
    by its index. *)
Definition itemResults {A B} (opts : SchemaOptions)
    (step : A → SchemaOptions → MaybeValid B) (items : list A)
    : list (MaybeValid B) :=
  imap (λ i v, step v (descend opts (pretty i))) items.

(** The first alternative, in declaration order, that accepts the value. *)
Definition firstMatch (accept : Schema → MaybeValid Typed)
    : list Schema → nat → option Typed :=
  fix try (alternatives : list Schema) (i : nat) : option Typed :=
    match alternatives with
    | [] => None
    | alt :: rest =>
        match accept alt with
        | Valid t => Some (TMember i t)
        | Invalid _ => try rest (S i)
        end
    end.

(** The alternative at a declaration position. *)
Definition atPosition {B} (opts : SchemaOptions) (write : Schema → MaybeValid B)
    : list Schema → nat → MaybeValid B :=
  fix pick (alternatives : list Schema) (i : nat) : MaybeValid B :=
    match alternatives, i with
    | [], _ => failure opts "Unknown union member"
    | alt :: _, O => write alt
    | _ :: rest, S j => pick rest j
    end.

(** Modelled from the spec: [parse] of the schema engine ([core.serialization]
    is not among the sources).  Objects: every declared required field must be
    present and valid, unknown keys are dropped in strict mode and retained in
    the extra bag in passthrough mode.  Enums: the closed set in strict mode,
    any string verbatim in permissive mode.  Unions: the first alternative, in
    declaration order, that accepts the value; otherwise a failure, or the raw
    value kept opaque in permissive mode. *)
Fixpoint parse (s : Schema) (raw : Raw) (opts : SchemaOptions) {struct s}
    : MaybeValid Typed :=
  match s with
  | SString =>
      match raw with RStr x => Valid (TString x) | _ => failure opts "Expected string" end
  | SNumber =>
      match raw with RNum n => Valid (TNumber n) | _ => failure opts "Expected number" end
  | SBoolean =>
      match raw with RBool b => Valid (TBoolean b) | _ => failure opts "Expected boolean" end
  | SEnum values =>
      match raw with
      | RStr x =>
          if knownEnumValue values x || allowUnrecognizedEnumValues opts
          then Valid (TEnum x)
          else failure opts "Expected enum"
      | _ => failure opts "Expected enum"
      end
  | SObject fields =>
      match raw with
      | RObj entries =>
          match gatherFields (fieldResults opts parse fields entries) with
          | Valid parsed =>
              Valid (TObject parsed
                       (if isPassthrough opts
                        then filter (λ kv, fields !! kv.1 = None) entries
                        else ∅))
          | Invalid e => Invalid e
          end
      | _ => failure opts "Expected object"
      end
  | SList item =>
      match raw with
      | RList items =>
          match gatherItems (itemResults opts (parse item) items) with
          | Valid parsed => Valid (TList parsed)
          | Invalid e => Invalid e
          end
      | _ => failure opts "Expected list"
      end
  | SUnion alternatives =>
      match firstMatch (λ alt, parse alt raw opts) alternatives 0 with
      | Some t => Valid t
      | None =>
          if allowUnrecognizedUnionMembers opts
          then Valid (TOpaque raw)
          else failure opts "Expected one of the union members"
      end
  end.

(** Modelled from the spec: [serialize], the inverse mapping of [parse], under
    the same options. *)
Fixpoint serialize (s : Schema) (t : Typed) (opts : SchemaOptions) {struct s}
    : MaybeValid Raw :=
  match s with
  | SString =>
      match t with TString x => Valid (RStr x) | _ => failure opts "Expected string" end
  | SNumber =>
      match t with TNumber n => Valid (RNum n) | _ => failure opts "Expected number" end
  | SBoolean =>
      match t with TBoolean b => Valid (RBool b) | _ => failure opts "Expected boolean" end
  | SEnum values =>
      match t with
      | TEnum x =>
          if knownEnumValue values x || allowUnrecognizedEnumValues opts
          then Valid (RStr x)
          else failure opts "Expected enum"
      | _ => failure opts "Expected enum"
      end
  | SObject fields =>
      match t with
      | TObject typed extra =>
          match gatherFields (fieldResults opts serialize fields typed) with
          | Valid written =>
              Valid (RObj (written ∪ (if isPassthrough opts then extra else ∅)))
          | Invalid e => Invalid e
          end
      | _ => failure opts "Expected object"
      end
  | SList item =>
      match t with
      | TList items =>
          match gatherItems (itemResults opts (serialize item) items) with
          | Valid written => Valid (RList written)
          | Invalid e => Invalid e
          end
      | _ => failure opts "Expected list"
      end
  | SUnion alternatives =>
      match t with
      | TMember i v =>
          atPosition opts (λ alt, serialize alt v opts) alternatives i
      | TOpaque r =>
          if allowUnrecognizedUnionMembers opts
          then Valid r
          else failure opts "Expected one of the union members"
      | _ => failure opts "Expected one of the union members"
      end
  end.

(** [enum_], [object] and [number] as the generated schema files call them. *)
Definition enum_ (values : list string) : Schema := SEnum values.
Definition number : Schema := SNumber.
Definition object (fields : list (string * Schema)) : Schema :=
  SObject (list_to_map (prod_map id (pair false) <$> fields)).

End Serialization.

Import Serialization.

(** The generated schema constants. *)
Definition DatasetItemSource : Schema := enum_ ["manual"; "trace"; "span"; "sdk"].
Definition LlmAsJudgeOutputSchemaWriteType : Schema := enum_ ["BOOLEAN"; "INTEGER"; "DOUBLE"].
Definition FeedbackScorePublicSource : Schema := enum_ ["ui"; "sdk"].
Definition NumericalFeedbackDetailUpdate : Schema :=
  object [("max", number); ("min", number)].


(* ===================================================================== *)
(** ** Suppliers and cancellation tokens                                  *)
(* ===================================================================== *)

Module Supplier.

(** Modelled from the spec: [core.Supplier] (not among the sources), a pinned
    value or a deferred accessor for one configuration value; resolution is a
    pure read. *)
Inductive t (A : Type) : Type :=
  | Pinned (value : A)
  | Deferred (accessor : unit → A).
Arguments Pinned {A} value.
Arguments Deferred {A} accessor.

(** [Supplier.get]: an option left out of the client options resolves to
    [undefined]; the resolved value itself may be [undefined] too. *)
Definition get {A} (supplier : option (t (option A))) : option A :=
  match supplier with
  | None => None
  | Some (Pinned v) => v
  | Some (Deferred f) => f tt
  end.

End Supplier.

(** Modelled from the spec: the cooperative cancellation token, seen from one
    call: the instant at which it fires, if it ever does, relative to the
    attempts of that call (just before attempt [n] is started, or while
    attempt [n] is in flight and the transport has not responded). *)
Inductive Instant : Type :=
  | BeforeAttempt (n : nat)
  | InFlight (n : nat).

Record AbortSignal : Type := mkAbortSignal { firesAt : option Instant }.

Definition firedBefore (signal : option AbortSignal) (n : nat) : bool :=
  match signal ≫= firesAt with
  | Some (BeforeAttempt k) => (k <=? n)%nat
  | Some (InFlight k) => (k <? n)%nat
  | None => false
  end.

Definition firesInFlight (signal : option AbortSignal) (n : nat) : bool :=
  match signal ≫= firesAt with
  | Some (InFlight k) => (k =? n)%nat
  | _ => false
  end.

(* ===================================================================== *)
(** ** Request executor                                                   *)
(* ===================================================================== *)

Module Fetcher.

(** The request descriptor, with the fields the generated methods fill in. *)
Record Args : Type := mkArgs {
  url : string;
  method : string;
  headers : gmap string (option string);
  contentType : string;
  requestType : string;
  timeoutMs : float;
  maxRetries : option nat;
  withCredentials : bool;
  abortSignal : option AbortSignal
}.

(** The failure half of the executor's result, read by the generated methods
    through [reason], [statusCode], [body], [rawBody] and [errorMessage]; a
    field a failure does not carry reads as [undefined]. *)
Record Error : Type := mkError {
  reason : string;
  statusCode : option Z;
  body : option Raw;
  rawBody : option string;
  errorMessage : option string
}.

Inductive APIResponse : Type :=
  | Success (body : Raw) (headers : gmap string string)
  | Failure (error : Error).

Definition ok (r : APIResponse) : bool :=
  match r with Success _ _ => true | Failure _ => false end.

Definition statusCodeError (status : Z) (b : Raw) : Error :=
  mkError "status-code" (Some status) (Some b) None None.
Definition nonJsonError (status : Z) (raw : string) : Error :=
  mkError "non-json" (Some status) None (Some raw) None.
Definition timeoutError : Error := mkError "timeout" None None None None.
Definition cancelledError : Error := mkError "cancelled" None None None None.
Definition unknownError (message : string) : Error :=
  mkError "unknown" None None None (Some message).

(** What the transport capability does with one attempt. *)
Inductive TransportOutcome : Type :=
  | Responded (elapsedMs : float) (status : Z) (headers : gmap string string) (body : string)
  | TransportFailure (message : string)
  | NeverResponds.

(** The transport is any function from the descriptor and the attempt number
    to an outcome. *)
Definition Transport : Type := Args → nat → TransportOutcome.

Definition DEFAULT_MAX_RETRIES : nat := 2.

Definition isSuccessStatus (status : Z) : bool :=
  ((200 <=? status) && (status <? 300))%Z.

(** The retry-eligible status set the spec suggests (429 and the 5xx class);
    the executor below takes the set as a parameter. *)
Definition defaultRetryableStatus (status : Z) : bool :=
  ((status =? 429) || ((500 <=? status) && (status <? 600)))%Z.

Inductive Verdict : Type :=
  | Final (r : APIResponse)
  | Retryable (r : APIResponse).

Record Run : Type := mkRun {
  response : APIResponse;
  sent : list Args
}.

Section Executor.

(** Decoding of a response body and the configurable set of retryable
    status codes. *)
Variable parseJson : string → option Raw.
Variable retryableStatus : Z → bool.

(** Modelled from the spec: classification of one attempt.  A response with
    a success status and a well-formed body succeeds; a malformed body is a
    non-json failure; a non-success status is a status-code failure,
    retryable when its status is in the configurable set; a transport-level
    failure is an unknown failure and retryable; no response before the
    deadline is a timeout. *)
Definition judge (args : Args) (outcome : TransportOutcome) : Verdict :=
  match outcome with
  | TransportFailure message => Retryable (Failure (unknownError message))
  | NeverResponds => Final (Failure timeoutError)
  | Responded elapsed status hs text =>
      if (timeoutMs args <=? elapsed)%float then Final (Failure timeoutError)
      else if isSuccessStatus status then
        match parseJson text with
        | Some raw => Final (Success raw hs)
        | None => Final (Failure (nonJsonError status text))
        end
      else
        let failed := Failure (statusCodeError status (default (RStr text) (parseJson text))) in
        if retryableStatus status then Retryable failed else Final failed
  end.

(** Modelled from the spec: the attempt loop of [core.fetcher] (not among
    the sources).  The token is checked before each attempt and aborts an
    attempt in flight; a retryable failure re-sends the same descriptor
    while retries are left; exhausting them surfaces the last failure.
    One call of [attempt] is the Sending state, its recursive call the
    passage through Retrying back to Sending, and the run it returns the
    terminal Succeeded or Failed state together with the descriptors sent. *)
Fixpoint attempt (send : Transport) (args : Args) (retriesLeft n : nat) : Run :=
  if firedBefore (abortSignal args) n then mkRun (Failure cancelledError) []
  else if firesInFlight (abortSignal args) n then mkRun (Failure cancelledError) [args]
  else
    match judge args (send args n) with
    | Final r => mkRun r [args]
    | Retryable r =>
        match retriesLeft with
        | O => mkRun r [args]
        | S k =>
            let rest := attempt send args k (S n) in
            mkRun (response rest) (args :: sent rest)
        end
    end.

Definition execute (send : Transport) (args : Args) : Run :=
  attempt send args (default DEFAULT_MAX_RETRIES (maxRetries args)) 0.

Definition fetcher (send : Transport) (args : Args) : APIResponse :=
  response (execute send args).

(** The token does not interfere with attempt [n]. *)
Definition quiet (args : Args) (n : nat) : Prop :=
  firedBefore (abortSignal args) n = false
  ∧ firesInFlight (abortSignal args) n = false.

(** Attempt [n] ends in a retryable failure. *)
Definition failsRetryably (send : Transport) (args : Args) (n : nat) : Prop :=
  ∃ r, judge args (send args n) = Retryable r.

End Executor.

End Fetcher.

(* ===================================================================== *)
(** ** The generated [SystemUsage] client                                 *)
(* ===================================================================== *)

(** Errors raised by the generated methods: [errors.OpikApiError],
    [errors.OpikApiTimeoutError], and the error [parseOrThrow] raises. *)
Inductive Exception : Type :=
  | OpikApiError (statusCode : option Z) (body : option Raw) (message : option string)
  | OpikApiTimeoutError (message : string)
  | ParseError (errors : ValidationError).

(** How an [async] body completes: it returns a value or throws. *)
Inductive Completion (A : Type) : Type :=
  | Returned (value : A)
  | Thrown (error : Exception).
Arguments Returned {A} value.
Arguments Thrown {A} error.

#[global] Instance Completion_bind : MBind Completion :=
  λ A B k c, match c with Returned a => k a | Thrown e => Thrown e end.

Definition parseOrThrow (s : Schema) (raw : Raw) (opts : SchemaOptions) : Completion Typed :=
  match parse s raw opts with
  | Valid t => Returned t
  | Invalid e => Thrown (ParseError e)
  end.

Module APIPromise.

(** [core.APIPromise] is not among the sources; what the call sites show is
    kept: [from] takes the promise of the [async] body.  [responsePromise]
    is that promise, as the body settles it; what awaiting the [APIPromise]
    itself yields is decided by the absent class and is not modelled. *)
Record t (A : Type) : Type := from { responsePromise : Completion A }.
Arguments from {A} responsePromise.
Arguments responsePromise {A} _.

End APIPromise.

(** An object literal: properties and spreads in source order, a later member
    overwriting an earlier one with the same key. *)
Inductive Member (V : Type) : Type :=
  | Property (key : string) (value : V)
  | Spread (source : gmap string V).
Arguments Property {V} key value.
Arguments Spread {V} source.

Definition objectLiteral {V} (members : list (Member V)) : gmap string V :=
  foldl (λ acc m,
           match m with
           | Property k v => <[k := v]> acc
           | Spread source => source ∪ acc
           end) ∅ members.

Module SystemUsage.

Module Options.
Record t : Type := mk {
  environment : option (Supplier.t (option string));
  apiKey : option (Supplier.t (option string));
  workspaceName : option (Supplier.t (option string))
}.
End Options.

Module RequestOptions.
(** [timeoutInSeconds] is a TypeScript [number], a binary64 floating-point
    value: fractional seconds, infinities and NaN included. *)
Record t : Type := mk {
  timeoutInSeconds : option float;
  maxRetries : option nat;
  abortSignal : option AbortSignal;
  apiKey : option string;
  workspaceName : option string;
  headers : option (gmap string string)
}.
End RequestOptions.

(** The object the success branch returns. *)
Record Response : Type := mkResponse {
  ok : bool;
  body : Typed;
  headers : gmap string string
}.

Section Client.

(** Constants and collaborators defined outside the generated file:
    [environments.OpikApiEnvironment.Default], [urlJoin], [core.RUNTIME],
    the response schemas and the request executor. *)
Variable OpikApiEnvironment_Default : string.
Variable urlJoin : string → string → string.
Variable RUNTIME_type RUNTIME_version : string.
Variable BiInformationResponse TraceCountResponse : Schema.
Variable fetcher : Fetcher.Args → Fetcher.APIResponse.

Definition _getCustomAuthorizationHeaders (_options : Options.t)
    : gmap string (option string) :=
  let apiKeyValue := Supplier.get (Options.apiKey _options) in
  objectLiteral [Property "Authorization" apiKeyValue].

(** The options every method passes to [parseOrThrow]. *)
Definition responseOptions : SchemaOptions :=
  {| unrecognizedObjectKeys := passthrough;
     allowUnrecognizedUnionMembers := true;
     allowUnrecognizedEnumValues := true;
     breadcrumbsPrefix := ["response"] |}.

(** The argument of [core.fetcher]. *)
Definition request (_options : Options.t) (path : string)
    (requestOptions : option RequestOptions.t) : Fetcher.Args :=
  {| Fetcher.url :=
       urlJoin
         (default OpikApiEnvironment_Default
            (Supplier.get (Options.environment _options)))
         path;
     Fetcher.method := "GET";
     Fetcher.headers :=
       objectLiteral
         [ Property "Comet-Workspace"
             (match Supplier.get (Options.workspaceName _options) with
              | Some _ => Supplier.get (Options.workspaceName _options)
              | None => None
              end);
           Property "X-Fern-Language" (Some "JavaScript");
           Property "X-Fern-Runtime" (Some RUNTIME_type);
           Property "X-Fern-Runtime-Version" (Some RUNTIME_version);
           Spread (_getCustomAuthorizationHeaders _options);
           Spread (Some <$> default ∅ (requestOptions ≫= RequestOptions.headers)) ];
     Fetcher.contentType := "application/json";
     Fetcher.requestType := "json";
     Fetcher.timeoutMs :=
       match requestOptions ≫= RequestOptions.timeoutInSeconds with
       | Some timeoutInSeconds => (timeoutInSeconds * 1000)%float
       | None => 60000%float
       end;
     Fetcher.maxRetries := requestOptions ≫= RequestOptions.maxRetries;
     Fetcher.withCredentials := true;
     Fetcher.abortSignal := requestOptions ≫= RequestOptions.abortSignal |}.

(** What the [async] body does with the executor's result; falling off the
    end of the body returns [undefined] ([None]). *)
Definition settle (path : string) (schema : Schema)
    (_response : Fetcher.APIResponse) : Completion (option Response) :=
  match _response with
  | Fetcher.Success b hs =>
      parsed ← parseOrThrow schema b responseOptions;
      Returned (Some {| ok := Fetcher.ok _response; body := parsed; headers := hs |})
  | Fetcher.Failure error =>
      if String.eqb (Fetcher.reason error) "status-code" then
        Thrown (OpikApiError (Fetcher.statusCode error) (Fetcher.body error) None)
      else if String.eqb (Fetcher.reason error) "non-json" then
        Thrown (OpikApiError (Fetcher.statusCode error)
                  (RStr <$> Fetcher.rawBody error) None)
      else if String.eqb (Fetcher.reason error) "timeout" then
        Thrown (OpikApiTimeoutError
                  ("Timeout exceeded when calling GET /" +:+ path +:+ "."))
      else if String.eqb (Fetcher.reason error) "unknown" then
        Thrown (OpikApiError None None (Fetcher.errorMessage error))
      else Returned None
  end.

Definition endpoint (path : string) (schema : Schema) (_options : Options.t)
    (requestOptions : option RequestOptions.t) : APIPromise.t (option Response) :=
  APIPromise.from
    (let _response := fetcher (request _options path requestOptions) in
     settle path schema _response).

Definition getDatasetBiInfo :=
  endpoint "v1/internal/usage/bi-datasets" BiInformationResponse.
Definition getExperimentBiInfo :=
  endpoint "v1/internal/usage/bi-experiments" BiInformationResponse.
Definition getTracesBiInfo :=
  endpoint "v1/internal/usage/bi-traces" BiInformationResponse.
Definition getTracesCountForWorkspaces :=
  endpoint "v1/internal/usage/workspace-trace-counts" TraceCountResponse.

End Client.

End SystemUsage.

(** The four operations of the class, to quantify over "every method". *)
Inductive Operation : Type :=
  | GetDatasetBiInfo
  | GetExperimentBiInfo
  | GetTracesBiInfo
  | GetTracesCountForWorkspaces.

Definition pathOf (op : Operation) : string :=
  match op with
  | GetDatasetBiInfo => "v1/internal/usage/bi-datasets"
  | GetExperimentBiInfo => "v1/internal/usage/bi-experiments"
  | GetTracesBiInfo => "v1/internal/usage/bi-traces"
  | GetTracesCountForWorkspaces => "v1/internal/usage/workspace-trace-counts"
  end.

(** The header a request really carries under a key: a property holding
    [undefined] is a header left unset. *)
Definition sentHeader (args : Fetcher.Args) (key : string) : option string :=
  mjoin (Fetcher.headers args !! key).

Section Operations.

Context (OpikApiEnvironment_Default : string).
Context (urlJoin : string → string → string).
Context (RUNTIME_type RUNTIME_version : string).
Context (BiInformationResponse TraceCountResponse : Schema).

Definition schemaOf (op : Operation) : Schema :=
  match op with
  | GetTracesCountForWorkspaces => TraceCountResponse
  | _ => BiInformationResponse
  end.

Definition invoke (fetcher : Fetcher.Args → Fetcher.APIResponse) (op : Operation)
    : SystemUsage.Options.t → option SystemUsage.RequestOptions.t →
      APIPromise.t (option SystemUsage.Response) :=
  match op with
  | GetDatasetBiInfo =>
      SystemUsage.getDatasetBiInfo OpikApiEnvironment_Default urlJoin
        RUNTIME_type RUNTIME_version BiInformationResponse fetcher
  | GetExperimentBiInfo =>
      SystemUsage.getExperimentBiInfo OpikApiEnvironment_Default urlJoin
        RUNTIME_type RUNTIME_version BiInformationResponse fetcher
  | GetTracesBiInfo =>
      SystemUsage.getTracesBiInfo OpikApiEnvironment_Default urlJoin
        RUNTIME_type RUNTIME_version BiInformationResponse fetcher
  | GetTracesCountForWorkspaces =>
      SystemUsage.getTracesCountForWorkspaces OpikApiEnvironment_Default urlJoin
        RUNTIME_type RUNTIME_version TraceCountResponse fetcher
  end.

End Operations.

(** *** Notions used to state the facts about the schema engine *)

Fixpoint schemaSize (s : Schema) : nat :=
  match s with
  | SObject fields => S (map_fold (λ _ (f : bool * Schema) acc, schemaSize f.2 + acc) 0 fields)
  | SList item => S (schemaSize item)
  | SUnion alternatives => S (foldr (λ alt acc, schemaSize alt + acc) 0 alternatives)
  | _ => 1
  end.

(** Every reported breadcrumb extends [prefix]. *)
Definition locatedUnder (prefix : list string) (errs : ValidationError) : Prop :=
  Forall (λ e : list string * string, prefix `prefix_of` e.1) errs.

(** The same options with unrecognized keys retained. *)
Definition withPassthrough (opts : SchemaOptions) : SchemaOptions :=
  {| unrecognizedObjectKeys := passthrough;
     allowUnrecognizedUnionMembers := allowUnrecognizedUnionMembers opts;
     allowUnrecognizedEnumValues := allowUnrecognizedEnumValues opts;
     breadcrumbsPrefix := breadcrumbsPrefix opts |}.

(** What [s] guarantees about a successfully parsed value: it can be written
    back, and gives the original value back when nothing was dropped. *)
Definition writesBack (s : Schema) : Prop :=
  ∀ raw opts t,
    parse s raw opts = Valid t →
    ∃ raw', serialize s t opts = Valid raw'
            ∧ (parse s raw (withPassthrough opts) = Valid t → raw' = raw).

(** Two contexts carrying the same strictness flags. *)
Definition sameFlags (opts opts' : SchemaOptions) : Prop :=
  unrecognizedObjectKeys opts = unrecognizedObjectKeys opts'
  ∧ allowUnrecognizedUnionMembers opts = allowUnrecognizedUnionMembers opts'
  ∧ allowUnrecognizedEnumValues opts = allowUnrecognizedEnumValues opts'.

(** The value is refused at this very node, under the flags of [opts]: it has
    the wrong shape for the schema, is an enum value outside the closed set
    while unrecognized values are not allowed, or matches no alternative of a
    union while unrecognized members are not allowed. *)
Definition refusedHere (opts : SchemaOptions) (s : Schema) (raw : Raw) : bool :=
  match s, raw with
  | SString, RStr _ | SNumber, RNum _ | SBoolean, RBool _ => false
  | SObject _, RObj _ | SList _, RList _ => false
  | SEnum values, RStr x =>
      negb (knownEnumValue values x || allowUnrecognizedEnumValues opts)
  | SUnion alternatives, _ =>
      negb (allowUnrecognizedUnionMembers opts)
      && forallb (λ alt, negb (isValid (parse alt raw opts))) alternatives
  | _, _ => true
  end.

(** [Offending opts s raw path]: following [path] from the root of the
    document, through object keys and list indices, leads to the offending
    field: a value refused at its node under the flags of [opts], or a
    required key that is missing from its object. *)
Inductive Offending (opts : SchemaOptions) : Schema → Raw → list string → Prop :=
  | Offending_here s raw :
      refusedHere opts s raw = true → Offending opts s raw []
  | Offending_missing fields entries key (field : bool * Schema) :
      fields !! key = Some field → field.1 = false → entries !! key = None →
      Offending opts (SObject fields) (RObj entries) [key]
  | Offending_field fields entries key (field : bool * Schema) v path :
      fields !! key = Some field → entries !! key = Some v →
      Offending opts field.2 v path →
      Offending opts (SObject fields) (RObj entries) (key :: path)
  | Offending_item item items i v path :
      items !! i = Some v →
      Offending opts item v path →
      Offending opts (SList item) (RList items) (pretty i :: path).

(** [PartAt s raw t path s' raw' t']: in the document [raw], read against [s]
    as the typed value [t], the part at [path] is [raw'], read against [s'] as
    [t'].  A union member sits at the path of the union itself. *)
Inductive PartAt : Schema → Raw → Typed → list string → Schema → Raw → Typed → Prop :=
  | PartAt_here s raw t : PartAt s raw t [] s raw t
  | PartAt_field fields entries parsed extra key (field : bool * Schema) v tv
        path s' raw' t' :
      fields !! key = Some field → entries !! key = Some v →
      parsed !! key = Some tv →
      PartAt field.2 v tv path s' raw' t' →
      PartAt (SObject fields) (RObj entries) (TObject parsed extra) (key :: path)
        s' raw' t'
  | PartAt_item item items parsed i v tv path s' raw' t' :
      items !! i = Some v → parsed !! i = Some tv →
      PartAt item v tv path s' raw' t' →
      PartAt (SList item) (RList items) (TList parsed) (pretty i :: path) s' raw' t'
  | PartAt_member alternatives j alt raw tv path s' raw' t' :
      alternatives !! j = Some alt →
      PartAt alt raw tv path s' raw' t' →
      PartAt (SUnion alternatives) raw (TMember j tv) path s' raw' t'.

(** A concrete environment for the examples below. *)
Module Example.

Definition environment : string := "http://localhost:5173/api".
Definition urlJoin (base path : string) : string := base +:+ "/" +:+ path.
Definition runtimeType : string := "node".
Definition runtimeVersion : string := "20".
Definition BiInformationResponse : Schema :=
  object [("workspace", SString); ("count", number)].
Definition TraceCountResponse : Schema :=
  object [("workspaces_traces_count", SList BiInformationResponse)].
Definition parseJson (text : string) : option Raw :=
  if String.eqb text "{}" then Some (RObj ∅) else None.

Definition noOptions : SystemUsage.Options.t := SystemUsage.Options.mk None None None.

Definition requestOptions (timeout : option float) (retries : option nat)
    (signal : option AbortSignal) (hs : option (gmap string string))
    : SystemUsage.RequestOptions.t :=
  SystemUsage.RequestOptions.mk timeout retries signal None None hs.

(** A client over this environment, for any executor. *)
Definition call (fetcher : Fetcher.Args → Fetcher.APIResponse) (op : Operation)
    : SystemUsage.Options.t → option SystemUsage.RequestOptions.t →
      APIPromise.t (option SystemUsage.Response) :=
  invoke environment urlJoin runtimeType runtimeVersion
    BiInformationResponse TraceCountResponse fetcher op.

Definition request : SystemUsage.Options.t → string →
    option SystemUsage.RequestOptions.t → Fetcher.Args :=
  SystemUsage.request environment urlJoin runtimeType runtimeVersion.

(** Executors that fail in a fixed way. *)
Definition failing (error : Fetcher.Error) : Fetcher.Args → Fetcher.APIResponse :=
  λ _, Fetcher.Failure error.

Definition notFound : Fetcher.Error :=
  Fetcher.statusCodeError 404 (RObj {[ "message" := RStr "not found" ]}).

(** Transports: one that fails twice and then answers, one that always fails,
    one that never answers. *)
Definition flaky : Fetcher.Transport :=
  λ _ n, if (n <? 2)%nat
         then Fetcher.TransportFailure "connection reset"
         else Fetcher.Responded 10%float 200 ∅ "{}".





(** Options and a payload for the schema engine. *)
Definition strictOptions : SchemaOptions := mkSchemaOptions strict false false ["response"].
Definition passthroughOptions : SchemaOptions :=
  mkSchemaOptions passthrough false false ["response"].
Definition rootOptions : SchemaOptions := mkSchemaOptions strict false false [].

Definition annotatedDetail : Raw :=
  RObj {[ "max" := RNum 1; "min" := RNum 0; "note" := RStr "x" ]}.
Definition plainDetail : Raw :=
  RObj {[ "max" := RNum 1; "min" := RNum 0 ]}.

(** Client options that pin the workspace name. *)
Definition teamOptions : SystemUsage.Options.t :=
  SystemUsage.Options.mk None None (Some (Supplier.Pinned (Some "team-a"))).

End Example.

(* ===================================================================== *)
(** ** The raw types declared beside the schemas                          *)
(* ===================================================================== *)

(** [DatasetItemSource.Raw = "manual" | "trace" | "span" | "sdk"]. *)
Module DatasetItemSourceRaw.
Inductive t : Type := manual | trace | span | sdk.
Definition wire (r : t) : string :=
  match r with
  | manual => "manual" | trace => "trace" | span => "span" | sdk => "sdk"
  end.
End DatasetItemSourceRaw.

(** [LlmAsJudgeOutputSchemaWriteType.Raw = "BOOLEAN" | "INTEGER" | "DOUBLE"]. *)
Module LlmAsJudgeOutputSchemaWriteTypeRaw.
Inductive t : Type := BOOLEAN | INTEGER | DOUBLE.
Definition wire (r : t) : string :=
  match r with
  | BOOLEAN => "BOOLEAN" | INTEGER => "INTEGER" | DOUBLE => "DOUBLE"
  end.
End LlmAsJudgeOutputSchemaWriteTypeRaw.

(** [FeedbackScorePublicSource.Raw = "ui" | "sdk"]. *)
Module FeedbackScorePublicSourceRaw.
Inductive t : Type := ui | sdk.
Definition wire (r : t) : string :=
  match r with ui => "ui" | sdk => "sdk" end.
End FeedbackScorePublicSourceRaw.

(** [NumericalFeedbackDetailUpdate.Raw], an interface with the two required
    numbers [max] and [min]. *)
Module NumericalFeedbackDetailUpdateRaw.
Record t : Type := mk { max : Z; min : Z }.
Definition wire (r : t) : gmap string Raw :=
  <["max" := RNum (max r)]> (<["min" := RNum (min r)]> ∅).
Definition typed (r : t) : gmap string Typed :=
  <["max" := TNumber (max r)]> (<["min" := TNumber (min r)]> ∅).
End NumericalFeedbackDetailUpdateRaw.

(* ===================================================================== *)
(** ** The end-to-end test workflow                                       *)
(* ===================================================================== *)

Module E2EWorkflow.










End E2EWorkflow.

(* ===================================================================== *)
(** ** Facts about the generated methods                                  *)
(* ===================================================================== *)

Section SystemUsageFacts.

Context (OpikApiEnvironment_Default : string).
Context (urlJoin : string → string → string).
Context (RUNTIME_type RUNTIME_version : string).
Context (BiInformationResponse TraceCountResponse : Schema).

Local Notation request :=
  (SystemUsage.request OpikApiEnvironment_Default urlJoin RUNTIME_type RUNTIME_version).
Local Notation schemaOf := (schemaOf BiInformationResponse TraceCountResponse).
Local Notation invoke :=
  (invoke OpikApiEnvironment_Default urlJoin RUNTIME_type RUNTIME_version
     BiInformationResponse TraceCountResponse).

(** Every method hands [request] to the executor and settles on its result. *)
Lemma invoke_settles fetcher op _options requestOptions :
  APIPromise.responsePromise (invoke fetcher op _options requestOptions)
  = SystemUsage.settle (pathOf op) (schemaOf op)
      (fetcher (request _options (pathOf op) requestOptions)).
Proof. by destruct op. Qed.

Lemma settle_failure path schema error :
  SystemUsage.settle path schema (Fetcher.Failure error)
  = if String.eqb (Fetcher.reason error) "status-code" then
      Thrown (OpikApiError (Fetcher.statusCode error) (Fetcher.body error) None)
    else if String.eqb (Fetcher.reason error) "non-json" then
      Thrown (OpikApiError (Fetcher.statusCode error)
                (RStr <$> Fetcher.rawBody error) None)
    else if String.eqb (Fetcher.reason error) "timeout" then
      Thrown (OpikApiTimeoutError
                ("Timeout exceeded when calling GET /" +:+ path +:+ "."))
    else if String.eqb (Fetcher.reason error) "unknown" then
      Thrown (OpikApiError None None (Fetcher.errorMessage error))
    else Returned None.
Proof. reflexivity. Qed.

(** The timeout messages are the literals of the four methods. *)
Lemma timeout_message_literals :
  "Timeout exceeded when calling GET /" +:+ pathOf GetDatasetBiInfo +:+ "."
    = "Timeout exceeded when calling GET /v1/internal/usage/bi-datasets."
  ∧ "Timeout exceeded when calling GET /" +:+ pathOf GetExperimentBiInfo +:+ "."
    = "Timeout exceeded when calling GET /v1/internal/usage/bi-experiments."
  ∧ "Timeout exceeded when calling GET /" +:+ pathOf GetTracesBiInfo +:+ "."
    = "Timeout exceeded when calling GET /v1/internal/usage/bi-traces."
  ∧ "Timeout exceeded when calling GET /" +:+ pathOf GetTracesCountForWorkspaces +:+ "."
    = "Timeout exceeded when calling GET /v1/internal/usage/workspace-trace-counts.".
Proof. by repeat split. Qed.

Lemma eqb_of_eq (a b : string) : a = b → String.eqb a b = true.
Proof. intros ->. apply String.eqb_refl. Qed.

Lemma eqb_of_neq (a b : string) : a ≠ b → String.eqb a b = false.
Proof. intros H. by apply String.eqb_neq. Qed.

(** C1 (as the code has it): a failure of the executor whose reason is
    status-code, non-json, timeout or unknown is raised by the method as the
    corresponding error, never returned; whatever a method returns as an
    object has [ok = true] and comes from a successful executor result. *)
Theorem failures_are_thrown fetcher op _options requestOptions error :
  fetcher (request _options (pathOf op) requestOptions) = Fetcher.Failure error →
  let promise := APIPromise.responsePromise (invoke fetcher op _options requestOptions) in
  (Fetcher.reason error = "status-code" →
     promise = Thrown (OpikApiError (Fetcher.statusCode error) (Fetcher.body error) None))
  ∧ (Fetcher.reason error = "non-json" →
     promise = Thrown (OpikApiError (Fetcher.statusCode error)
                         (RStr <$> Fetcher.rawBody error) None))
  ∧ (Fetcher.reason error = "timeout" →
     promise = Thrown (OpikApiTimeoutError
                         ("Timeout exceeded when calling GET /" +:+ pathOf op +:+ ".")))
  ∧ (Fetcher.reason error = "unknown" →
     promise = Thrown (OpikApiError None None (Fetcher.errorMessage error)))
  ∧ (∀ r, promise ≠ Returned (Some r)).
Proof.
  intros Hf promise. subst promise.
  rewrite invoke_settles, Hf, settle_failure.
  repeat split.
  - intros ->. reflexivity.
  - intros ->. reflexivity.
  - intros ->. reflexivity.
  - intros ->. reflexivity.
  - intros r. repeat case_match; discriminate.
Qed.

(** C6: the timeout handed to the executor is [timeoutInSeconds * 1000]
    milliseconds, the binary64 product, when the caller supplies it and 60000
    (60 seconds) when the caller leaves it out, for every method. *)
Theorem timeout_handed_to_fetcher fetcher op _options requestOptions :
  let args := request _options (pathOf op) requestOptions in
  APIPromise.responsePromise (invoke fetcher op _options requestOptions)
    = SystemUsage.settle (pathOf op) (schemaOf op) (fetcher args)
  ∧ (∀ seconds,
       requestOptions ≫= SystemUsage.RequestOptions.timeoutInSeconds = Some seconds →
       Fetcher.timeoutMs args = (seconds * 1000)%float)
  ∧ (requestOptions ≫= SystemUsage.RequestOptions.timeoutInSeconds = None →
       Fetcher.timeoutMs args = 60000%float
       ∧ Fetcher.timeoutMs args = (60 * 1000)%float).
Proof.
  intros args. split; [apply invoke_settles|].
  subst args. unfold SystemUsage.request. simpl.
  split.
  - intros seconds ->. reflexivity.
  - intros ->. split; reflexivity.
Qed.

(** C7: when the environment supplier resolves to nothing, the URL handed to
    the executor is the default environment joined with the endpoint path,
    and the call proceeds to the executor as usual. *)
Theorem environment_falls_back_to_default fetcher op _options requestOptions :
  Supplier.get (SystemUsage.Options.environment _options) = None →
  let args := request _options (pathOf op) requestOptions in
  Fetcher.url args = urlJoin OpikApiEnvironment_Default (pathOf op)
  ∧ APIPromise.responsePromise (invoke fetcher op _options requestOptions)
    = SystemUsage.settle (pathOf op) (schemaOf op) (fetcher args).
Proof.
  intros Henv args. split; [|apply invoke_settles].
  subst args. unfold SystemUsage.request. simpl. by rewrite Henv.
Qed.

Lemma comet_workspace_lookup _options path requestOptions :
  Fetcher.headers (request _options path requestOptions) !! "Comet-Workspace"
  = match default ∅ (requestOptions ≫= SystemUsage.RequestOptions.headers)
            !! "Comet-Workspace" with
    | Some v => Some (Some v)
    | None => Some (Supplier.get (SystemUsage.Options.workspaceName _options))
    end.
Proof.
  unfold SystemUsage.request, SystemUsage._getCustomAuthorizationHeaders,
    objectLiteral. simpl.
  rewrite lookup_union, lookup_fmap.
  destruct (default ∅ _ !! "Comet-Workspace") as [v|]; simpl; [done|].
  rewrite (left_id None _).
  rewrite lookup_union.
  rewrite lookup_insert_ne by done. rewrite lookup_empty, (left_id None _).
  do 3 (rewrite lookup_insert_ne by done).
  rewrite lookup_insert_eq.
  by destruct (Supplier.get _).
Qed.

(** C8 (as the code has it): unless the per-call [headers] carry their own
    Comet-Workspace entry, the header is left unset when the workspace-name
    supplier resolves to nothing and is the resolved string otherwise; a
    per-call Comet-Workspace entry is sent in its place. *)
Theorem workspace_header fetcher op _options requestOptions :
  let args := request _options (pathOf op) requestOptions in
  let perCall := default ∅ (requestOptions ≫= SystemUsage.RequestOptions.headers) in
  APIPromise.responsePromise (invoke fetcher op _options requestOptions)
    = SystemUsage.settle (pathOf op) (schemaOf op) (fetcher args)
  ∧ (perCall !! "Comet-Workspace" = None →
     (Supplier.get (SystemUsage.Options.workspaceName _options) = None →
        sentHeader args "Comet-Workspace" = None)
     ∧ (∀ name, Supplier.get (SystemUsage.Options.workspaceName _options) = Some name →
        sentHeader args "Comet-Workspace" = Some name))
  ∧ (∀ override, perCall !! "Comet-Workspace" = Some override →
     sentHeader args "Comet-Workspace" = Some override).
Proof.
  intros args perCall. split; [apply invoke_settles|].
  subst args perCall. unfold sentHeader. rewrite comet_workspace_lookup.
  split.
  - intros ->. split.
    + by intros ->.
    + by intros name ->.
  - by intros override ->.
Qed.

End SystemUsageFacts.

(* ===================================================================== *)
(** ** Facts about the request executor                                   *)
(* ===================================================================== *)

Section ExecutorFacts.

Context (parseJson : string → option Raw) (retryableStatus : Z → bool).

Local Notation judge := (Fetcher.judge parseJson retryableStatus).
Local Notation attempt := (Fetcher.attempt parseJson retryableStatus).
Local Notation execute := (Fetcher.execute parseJson retryableStatus).
Local Notation quiet := Fetcher.quiet.
Local Notation failsRetryably := (Fetcher.failsRetryably parseJson retryableStatus).

Lemma attempt_unfold send args k n :
  attempt send args k n
  = if firedBefore (Fetcher.abortSignal args) n
    then Fetcher.mkRun (Fetcher.Failure Fetcher.cancelledError) []
    else if firesInFlight (Fetcher.abortSignal args) n
    then Fetcher.mkRun (Fetcher.Failure Fetcher.cancelledError) [args]
    else match judge args (send args n) with
         | Fetcher.Final r => Fetcher.mkRun r [args]
         | Fetcher.Retryable r =>
             match k with
             | O => Fetcher.mkRun r [args]
             | S k' =>
                 Fetcher.mkRun (Fetcher.response (attempt send args k' (S n)))
                   (args :: Fetcher.sent (attempt send args k' (S n)))
             end
         end.
Proof. destruct k; reflexivity. Qed.

Lemma attempt_sent_length send args k n :
  length (Fetcher.sent (attempt send args k n)) ≤ S k.
Proof.
  revert n. induction k as [|k IH]; intros n; rewrite attempt_unfold;
    repeat case_match; simpl; try lia.
  specialize (IH (S n)). lia.
Qed.

Lemma attempt_sent_same send args k n :
  Forall (eq args) (Fetcher.sent (attempt send args k n)).
Proof.
  revert n. induction k as [|k IH]; intros n; rewrite attempt_unfold;
    repeat case_match; simpl; repeat constructor.
  apply IH.
Qed.

(** After [j] retryable failures with the token silent, the run continues
    with attempt [n + j] and [j] fewer retries. *)
Lemma attempt_after_failures send args j : ∀ k n,
  (∀ i, n ≤ i < n + j → quiet args i ∧ failsRetryably send args i) →
  j ≤ k →
  attempt send args k n
  = Fetcher.mkRun (Fetcher.response (attempt send args (k - j) (n + j)))
      (replicate j args ++ Fetcher.sent (attempt send args (k - j) (n + j))).
Proof.
  induction j as [|j IH]; intros k n Hfail Hle.
  - rewrite Nat.sub_0_r, Nat.add_0_r. simpl. by destruct (attempt send args k n).
  - destruct k as [|k]; [lia|].
    destruct (Hfail n) as [[Hb Hi] [r Hr]]; [lia|].
    rewrite attempt_unfold, Hb, Hi, Hr.
    rewrite (IH k (S n)); [|intros i ?; apply Hfail; lia|lia].
    simpl. by replace (n + S j) with (S n + j) by lia.
Qed.

Lemma quiet_never_fires args n :
  Fetcher.abortSignal args ≫= firesAt = None → quiet args n.
Proof. intros H. unfold quiet, firedBefore, firesInFlight. by rewrite H. Qed.



Lemma execute_unfold send args :
  execute send args = attempt send args (default 2 (Fetcher.maxRetries args)) 0.
Proof. reflexivity. Qed.

Lemma retryable_is_failure args outcome r :
  judge args outcome = Fetcher.Retryable r → Fetcher.ok r = false.
Proof.
  unfold Fetcher.judge. intros H.
  repeat case_match; try discriminate; by injection H as <-.
Qed.

(** C5: the executor sends the same descriptor at most [maxRetries + 1]
    times, [maxRetries] being 2 when the caller leaves it out; as long as
    attempts fail retryably it re-sends, so with two retries two retryable
    failures followed by a success give that success after exactly three
    attempts, and three retryable failures give the third failure after
    exactly three attempts. *)
Theorem bounded_retries send args :
  let retries := default 2 (Fetcher.maxRetries args) in
  let run := execute send args in
  (Fetcher.maxRetries args = None → run = attempt send args 2 0)
  ∧ length (Fetcher.sent run) ≤ retries + 1
  ∧ Forall (eq args) (Fetcher.sent run)
  ∧ (Fetcher.abortSignal args ≫= firesAt = None →
     (∀ j r, j ≤ retries →
        (∀ i, i < j → failsRetryably send args i) →
        judge args (send args j) = Fetcher.Final r →
        run = Fetcher.mkRun r (replicate (j + 1) args))
     ∧ (∀ r, (∀ i, i < retries → failsRetryably send args i) →
        judge args (send args retries) = Fetcher.Retryable r →
        run = Fetcher.mkRun r (replicate (retries + 1) args))
     ∧ (retries = 2 → ∀ r0 r1 b hs,
        judge args (send args 0) = Fetcher.Retryable r0 →
        judge args (send args 1) = Fetcher.Retryable r1 →
        judge args (send args 2) = Fetcher.Final (Fetcher.Success b hs) →
        Fetcher.response run = Fetcher.Success b hs
        ∧ length (Fetcher.sent run) = 3)
     ∧ (retries = 2 → ∀ r0 r1 r2,
        judge args (send args 0) = Fetcher.Retryable r0 →
        judge args (send args 1) = Fetcher.Retryable r1 →
        judge args (send args 2) = Fetcher.Retryable r2 →
        Fetcher.response run = r2
        ∧ Fetcher.ok (Fetcher.response run) = false
        ∧ length (Fetcher.sent run) = 3)).
Proof.
  intros retries run.
  assert (Hfinal : Fetcher.abortSignal args ≫= firesAt = None →
    ∀ j r, j ≤ retries →
      (∀ i, i < j → failsRetryably send args i) →
      judge args (send args j) = Fetcher.Final r →
      run = Fetcher.mkRun r (replicate (j + 1) args)).
  { intros Hq j r Hj Hfail Hr. subst run. rewrite execute_unfold. fold retries.
    rewrite (attempt_after_failures send args j retries 0); [|
      intros i ?; split; [by apply quiet_never_fires | apply Hfail; lia] | done].
    rewrite attempt_unfold.
    destruct (quiet_never_fires args (0 + j) Hq) as [-> ->]. simpl.
    rewrite Hr. simpl. f_equal.
    replace (j + 1) with (S j) by lia. by rewrite replicate_S_end. }
  assert (Hlast : Fetcher.abortSignal args ≫= firesAt = None →
    ∀ r, (∀ i, i < retries → failsRetryably send args i) →
      judge args (send args retries) = Fetcher.Retryable r →
      run = Fetcher.mkRun r (replicate (retries + 1) args)).
  { intros Hq r Hfail Hr. subst run. rewrite execute_unfold. fold retries.
    rewrite (attempt_after_failures send args retries retries 0); [|
      intros i ?; split; [by apply quiet_never_fires | apply Hfail; lia] | done].
    rewrite Nat.sub_diag, attempt_unfold.
    destruct (quiet_never_fires args (0 + retries) Hq) as [-> ->]. simpl.
    rewrite Hr. simpl. f_equal.
    replace (retries + 1) with (S retries) by lia. by rewrite replicate_S_end. }
  split; [|split; [|split; [|intros Hq; split; [|split; [|split]]]]].
  - intros Hnone. subst run. rewrite execute_unfold. by rewrite Hnone.
  - subst run. rewrite execute_unfold. fold retries.
    pose proof (attempt_sent_length send args retries 0). lia.
  - apply attempt_sent_same.
  - by apply Hfinal.
  - by apply Hlast.
  - intros H2 r0 r1 b hs H0 H1 Hs.
    rewrite (Hfinal Hq 2 (Fetcher.Success b hs)); [done|lia| |done].
    intros i Hi. destruct i as [|[|i]]; [by exists r0|by exists r1|lia].
  - intros H2 r0 r1 r2 H0 H1 Hs.
    rewrite (Hlast Hq r2); [|  |by rewrite H2].
    + rewrite H2. simpl. by rewrite (retryable_is_failure _ _ _ Hs).
    + rewrite H2. intros i Hi. destruct i as [|[|i]]; [by exists r0|by exists r1|lia].
Qed.





End ExecutorFacts.


Section CancellationFacts.

Context (OpikApiEnvironment_Default : string).
Context (urlJoin : string → string → string).
Context (RUNTIME_type RUNTIME_version : string).
Context (BiInformationResponse TraceCountResponse : Schema).
Context (parseJson : string → option Raw) (retryableStatus : Z → bool).

Local Notation request :=
  (SystemUsage.request OpikApiEnvironment_Default urlJoin RUNTIME_type RUNTIME_version).
Local Notation execute := (Fetcher.execute parseJson retryableStatus).
Local Notation invoke :=
  (invoke OpikApiEnvironment_Default urlJoin RUNTIME_type RUNTIME_version
     BiInformationResponse TraceCountResponse).


End CancellationFacts.

(* ===================================================================== *)
(** ** Facts about the schema engine                                      *)
(* ===================================================================== *)

Section SchemaInduction.

Lemma schemaSize_field fields key (field : bool * Schema) :
  fields !! key = Some field → schemaSize field.2 < schemaSize (SObject fields).
Proof.
  intros Hk. simpl.
  rewrite (map_fold_delete_L _ _ key field fields); [lia| |done].
  intros. lia.
Qed.

Lemma schemaSize_alternative alternatives alt :
  alt ∈ alternatives → schemaSize alt < schemaSize (SUnion alternatives).
Proof.
  simpl. induction 1 as [|? ? ? ? IH]; simpl; lia.
Qed.

(** Induction over schemas, with the hypothesis available for every field
    of an object and every alternative of a union. *)
Lemma Schema_nested_ind (P : Schema → Prop) :
  P SString → P SNumber → P SBoolean →
  (∀ values, P (SEnum values)) →
  (∀ fields, map_Forall (λ _ (f : bool * Schema), P f.2) fields → P (SObject fields)) →
  (∀ item, P item → P (SList item)) →
  (∀ alternatives, Forall P alternatives → P (SUnion alternatives)) →
  ∀ s, P s.
Proof.
  intros Hs Hn Hb He Ho Hl Hu s.
  remember (schemaSize s) as size eqn:Hsize. revert s Hsize.
  induction (lt_wf size) as [size _ IH]. intros s ->.
  destruct s as [| | |values|fields|item|alternatives]; auto.
  - apply Ho. intros key field Hk.
    apply (IH _ (schemaSize_field _ _ _ Hk)). reflexivity.
  - apply Hl. apply (IH (schemaSize item)); [simpl; lia|reflexivity].
  - apply Hu. apply Forall_forall. intros alt Halt.
    apply (IH _ (schemaSize_alternative _ _ Halt)). reflexivity.
Qed.

End SchemaInduction.

Section Gathering.

Context {A : Type}.

Lemma gatherFields_valid (results : gmap string (MaybeValid A)) m :
  gatherFields results = Valid m →
  map_Forall (λ _ r, isValid r = true) results ∧ m = omap validValue results.
Proof.
  unfold gatherFields. case_bool_decide; [|discriminate].
  intros [= <-]. done.
Qed.

Lemma gatherFields_all_valid (results : gmap string (MaybeValid A)) :
  map_Forall (λ _ r, isValid r = true) results →
  gatherFields results = Valid (omap validValue results).
Proof. intros H. unfold gatherFields. by rewrite bool_decide_eq_true_2. Qed.

Lemma gatherFields_invalid (results : gmap string (MaybeValid A)) errs e :
  gatherFields results = Invalid errs → e ∈ errs →
  ∃ key r, results !! key = Some r ∧ e ∈ issues r.
Proof.
  unfold gatherFields. case_bool_decide; [discriminate|]. intros [= <-].
  revert e.
  apply (map_fold_weak_ind
           (λ acc (m : gmap string (MaybeValid A)),
              ∀ e, e ∈ acc → ∃ key r, m !! key = Some r ∧ e ∈ issues r)).
  - intros e He. by apply elem_of_nil in He.
  - intros key r m acc Hnone IH e He.
    apply elem_of_app in He as [He|He].
    + exists key, r. by rewrite lookup_insert_eq.
    + destruct (IH e He) as (key' & r' & Hk & Hr).
      exists key', r'. split; [|done].
      rewrite lookup_insert_ne; [done|]. intros ->. congruence.
Qed.

Lemma gatherItems_valid (results : list (MaybeValid A)) l :
  gatherItems results = Valid l → results = Valid <$> l.
Proof.
  unfold gatherItems. destruct (forallb isValid results) eqn:Hall; [|discriminate].
  intros [= <-]. induction results as [|[a|e] results IH]; simpl in *;
    [done| |discriminate].
  f_equal. by apply IH.
Qed.

Lemma gatherItems_all_valid (l : list A) :
  gatherItems (Valid <$> l) = Valid l.
Proof.
  unfold gatherItems.
  assert (forallb isValid (Valid <$> l) = true) as -> by (by induction l).
  f_equal. induction l as [|a l IH]; [done|].
  change (a :: omap validValue (Valid <$> l) = a :: l). by rewrite IH.
Qed.

Lemma gatherItems_invalid (results : list (MaybeValid A)) errs e :
  gatherItems results = Invalid errs → e ∈ errs →
  ∃ r, r ∈ results ∧ e ∈ issues r.
Proof.
  unfold gatherItems. destruct (forallb isValid results); [discriminate|].
  intros [= <-] He. apply list_elem_of_In, in_concat in He as (es & Hes & He).
  apply list_elem_of_In, list_elem_of_fmap in Hes as (r & -> & Hr).
  apply list_elem_of_In in He. eauto.
Qed.

End Gathering.

Lemma lookup_fieldResults {A B} opts (step : Schema → A → SchemaOptions → MaybeValid B)
    fields (entries : gmap string A) key :
  fieldResults opts step fields entries !! key
  = fields !! key ≫= λ field : bool * Schema,
      match entries !! key with
      | Some v => Some (step field.2 v (descend opts key))
      | None =>
          if field.1 then None
          else Some (failure (descend opts key) "Missing required key")
      end.
Proof. unfold fieldResults. by rewrite map_lookup_imap. Qed.

Lemma lookup_itemResults {A B} opts (step : A → SchemaOptions → MaybeValid B)
    (items : list A) i :
  itemResults opts step items !! i
  = (λ v, step v (descend opts (pretty i))) <$> items !! i.
Proof. unfold itemResults. by rewrite list_lookup_imap. Qed.

(** *** Breadcrumbs *)

Lemma locatedUnder_failure {A} opts message errs :
  @failure A opts message = Invalid errs → locatedUnder (breadcrumbsPrefix opts) errs.
Proof. intros [= <-]. by repeat constructor. Qed.

Lemma prefix_of_descend opts name crumb :
  breadcrumbsPrefix (descend opts name) `prefix_of` crumb →
  breadcrumbsPrefix opts `prefix_of` crumb.
Proof. simpl. intros H. etrans; [|exact H]. by apply prefix_app_r. Qed.

(** Every reported breadcrumb extends the breadcrumb of the context the
    engine was entered with. *)
Lemma parse_breadcrumbs s : ∀ raw opts errs,
  parse s raw opts = Invalid errs → locatedUnder (breadcrumbsPrefix opts) errs.
Proof.
  induction s as [ | | |values|fields IH|item IH|alternatives IH]
    using Schema_nested_ind; intros raw opts errs Hparse.
  - destruct raw; try (by apply (locatedUnder_failure _ _ _ Hparse)); discriminate.
  - destruct raw; try (by apply (locatedUnder_failure _ _ _ Hparse)); discriminate.
  - destruct raw; try (by apply (locatedUnder_failure _ _ _ Hparse)); discriminate.
  - destruct raw; simpl in Hparse;
      try (by apply (locatedUnder_failure _ _ _ Hparse)).
    case_match; [discriminate|by apply (locatedUnder_failure _ _ _ Hparse)].
  - destruct raw as [| | | | |entries];
      try (by apply (locatedUnder_failure _ _ _ Hparse)).
    simpl in Hparse.
    destruct (gatherFields _) as [parsed|errs'] eqn:Hgather; [discriminate|].
    injection Hparse as <-.
    apply Forall_forall. intros e He.
    destruct (gatherFields_invalid _ _ _ Hgather He) as (key & r & Hkey & Hr).
    rewrite lookup_fieldResults in Hkey.
    destruct (fields !! key) as [field|] eqn:Hfield; [|discriminate]. simpl in Hkey.
    apply (prefix_of_descend opts key).
    destruct (entries !! key) as [v|].
    + injection Hkey as <-.
      destruct (parse field.2 v (descend opts key)) as [a|errs''] eqn:Hfieldparse;
        [by apply elem_of_nil in Hr|].
      pose proof (IH key field Hfield _ _ _ Hfieldparse) as Hloc.
      by apply (proj1 (Forall_forall _ _) Hloc).
    + destruct field.1; [discriminate|]. injection Hkey as <-.
      simpl in Hr. apply list_elem_of_singleton in Hr as ->. done.
  - destruct raw as [| | | |items|];
      try (by apply (locatedUnder_failure _ _ _ Hparse)).
    simpl in Hparse.
    destruct (gatherItems _) as [parsed|errs'] eqn:Hgather; [discriminate|].
    injection Hparse as <-.
    apply Forall_forall. intros e He.
    destruct (gatherItems_invalid _ _ _ Hgather He) as (r & Hin & Hr).
    apply list_elem_of_lookup in Hin as [i Hi].
    rewrite lookup_itemResults in Hi.
    destruct (items !! i) as [v|]; [|discriminate]. injection Hi as <-.
    apply (prefix_of_descend opts (pretty i)).
    destruct (parse item v (descend opts (pretty i))) as [a|errs''] eqn:Hitem;
      [by apply elem_of_nil in Hr|].
    by apply (proj1 (Forall_forall _ _) (IH _ _ _ Hitem)).
  - simpl in Hparse.
    destruct (firstMatch _ _ _); [discriminate|].
    destruct (allowUnrecognizedUnionMembers opts); [discriminate|].
    by apply (locatedUnder_failure _ _ _ Hparse).
Qed.

(** *** Round trip *)

Lemma isValid_true {A} (r : MaybeValid A) : isValid r = true → ∃ a, r = Valid a.
Proof. destruct r; [eauto|discriminate]. Qed.

Lemma omap_validValue_fmap {A} (l : list A) : omap validValue (Valid <$> l) = l.
Proof.
  induction l as [|a l IH]; [done|].
  change (a :: omap validValue (Valid <$> l) = a :: l). by rewrite IH.
Qed.

Lemma all_valid_fmap {A} (results : list (MaybeValid A)) :
  (∀ i r, results !! i = Some r → isValid r = true) →
  results = Valid <$> omap validValue results.
Proof.
  induction results as [|r results IH]; intros Hall; [done|].
  destruct (isValid_true r (Hall 0 r eq_refl)) as [a ->].
  change (Valid a :: results = Valid a :: (Valid <$> omap validValue results)).
  f_equal. apply IH. intros i r' Hi. exact (Hall (S i) r' Hi).
Qed.

Lemma firstMatch_some accept alternatives : ∀ i t,
  firstMatch accept alternatives i = Some t →
  ∃ j alt a, t = TMember (i + j) a ∧ alternatives !! j = Some alt ∧ accept alt = Valid a.
Proof.
  induction alternatives as [|alt rest IH]; intros i t Hm; [discriminate|].
  simpl in Hm. destruct (accept alt) as [a|] eqn:Hacc.
  - injection Hm as <-. exists 0, alt, a. by rewrite Nat.add_0_r.
  - destruct (IH _ _ Hm) as (j & alt' & a & -> & Hj & Ha).
    exists (S j), alt', a. split; [f_equal; lia|done].
Qed.

Lemma atPosition_lookup {B} opts (write : Schema → MaybeValid B) alternatives : ∀ i alt,
  alternatives !! i = Some alt → atPosition opts write alternatives i = write alt.
Proof.
  induction alternatives as [|alt' rest IH]; intros i alt Hi; [discriminate|].
  destruct i as [|i]; simpl in *; [by injection Hi as ->|by apply IH].
Qed.

Lemma writesBack_primitive s :
  s = SString ∨ s = SNumber ∨ s = SBoolean → writesBack s.
Proof.
  intros [-> | [-> | ->]] raw opts t Hparse;
    destruct raw; try discriminate; injection Hparse as <-; eauto.
Qed.

Lemma writesBack_enum values : writesBack (SEnum values).
Proof.
  intros raw opts t Hparse. destruct raw as [| | |x| |]; try discriminate.
  simpl in Hparse.
  destruct (knownEnumValue values x || allowUnrecognizedEnumValues opts) eqn:Hknown;
    [|discriminate].
  injection Hparse as <-. exists (RStr x). simpl. by rewrite Hknown.
Qed.

Lemma writesBack_union alternatives :
  Forall writesBack alternatives → writesBack (SUnion alternatives).
Proof.
  intros IH raw opts t Hparse. simpl in Hparse.
  destruct (firstMatch _ alternatives 0) as [t0|] eqn:Hm.
  - injection Hparse as <-.
    destruct (firstMatch_some _ _ _ _ Hm) as (j & alt & a & -> & Hj & Ha).
    simpl. rewrite (atPosition_lookup _ _ _ _ _ Hj).
    assert (Halt : writesBack alt).
    { apply (proj1 (Forall_forall _ _) IH). by apply list_elem_of_lookup_2 in Hj. }
    destruct (Halt _ _ _ Ha) as (raw' & Hser & Hback).
    exists raw'. split; [done|]. intros Hpass. apply Hback.
    simpl in Hpass.
    destruct (firstMatch (λ alt', parse alt' raw (withPassthrough opts)) alternatives 0)
      as [t1|] eqn:Hm'.
    + injection Hpass as ->.
      destruct (firstMatch_some _ _ _ _ Hm') as (j' & alt' & a' & Heq & Hj' & Ha').
      injection Heq as <- <-. by rewrite Hj in Hj'; injection Hj' as <-.
    + by destruct (allowUnrecognizedUnionMembers opts).
  - destruct (allowUnrecognizedUnionMembers opts) eqn:Hallow; [|discriminate].
    injection Hparse as <-. exists raw. simpl. by rewrite Hallow.
Qed.

Lemma parse_list item items opts :
  parse (SList item) (RList items) opts
  = match gatherItems (itemResults opts (parse item) items) with
    | Valid parsed => Valid (TList parsed)
    | Invalid e => Invalid e
    end.
Proof. reflexivity. Qed.

Lemma serialize_list item items opts :
  serialize (SList item) (TList items) opts
  = match gatherItems (itemResults opts (serialize item) items) with
    | Valid written => Valid (RList written)
    | Invalid e => Invalid e
    end.
Proof. reflexivity. Qed.

Lemma parse_object fields entries opts :
  parse (SObject fields) (RObj entries) opts
  = match gatherFields (fieldResults opts parse fields entries) with
    | Valid parsed =>
        Valid (TObject parsed
                 (if isPassthrough opts
                  then filter (λ kv, fields !! kv.1 = None) entries
                  else ∅))
    | Invalid e => Invalid e
    end.
Proof. reflexivity. Qed.

Lemma serialize_object fields typed extra opts :
  serialize (SObject fields) (TObject typed extra) opts
  = match gatherFields (fieldResults opts serialize fields typed) with
    | Valid written =>
        Valid (RObj (written ∪ (if isPassthrough opts then extra else ∅)))
    | Invalid e => Invalid e
    end.
Proof. reflexivity. Qed.

Lemma writesBack_list item : writesBack item → writesBack (SList item).
Proof.
  intros IH raw opts t Hparse. destruct raw as [| | | |items|]; try discriminate.
  rewrite parse_list in Hparse.
  destruct (gatherItems (itemResults opts (parse item) items)) as [parsed|] eqn:Hg;
    [|discriminate].
  injection Hparse as <-. apply gatherItems_valid in Hg.
  assert (Hpoint : ∀ i a, parsed !! i = Some a →
            ∃ v, items !! i = Some v ∧ parse item v (descend opts (pretty i)) = Valid a).
  { intros i a Hi. apply (f_equal (.!! i)) in Hg.
    rewrite lookup_itemResults, list_lookup_fmap, Hi in Hg.
    destruct (items !! i) as [v|]; [|discriminate]. injection Hg as Hg. eauto. }
  set (results := itemResults opts (serialize item) parsed).
  assert (Hall : ∀ i r, results !! i = Some r → isValid r = true).
  { intros i r Hr. unfold results in Hr. rewrite lookup_itemResults in Hr.
    destruct (parsed !! i) as [a|] eqn:Hi; [|discriminate]. injection Hr as <-.
    destruct (Hpoint i a Hi) as (v & Hv & Hp).
    by destruct (IH _ _ _ Hp) as (raw' & -> & _). }
  exists (RList (omap validValue results)). split.
  - rewrite serialize_list. fold results.
    rewrite (all_valid_fmap results Hall) at 1. by rewrite gatherItems_all_valid.
  - intros Hpass. f_equal. rewrite parse_list in Hpass.
    destruct (gatherItems (itemResults (withPassthrough opts) (parse item) items))
      as [parsed'|] eqn:Hg'; [|discriminate].
    injection Hpass as ->. apply gatherItems_valid in Hg'.
    assert (results = Valid <$> items) as ->; [|apply omap_validValue_fmap].
    apply list_eq. intros i. unfold results.
    rewrite lookup_itemResults, list_lookup_fmap.
    apply (f_equal (.!! i)) in Hg, Hg'.
    rewrite lookup_itemResults, list_lookup_fmap in Hg, Hg'.
    destruct (items !! i) as [v|], (parsed !! i) as [a|]; simpl in *;
      try discriminate; [|done].
    injection Hg as Hg. injection Hg' as Hg'.
    destruct (IH _ _ _ Hg) as (raw' & -> & Hback). do 2 f_equal. by apply Hback.
Qed.

Lemma writesBack_object fields :
  map_Forall (λ _ (f : bool * Schema), writesBack f.2) fields →
  writesBack (SObject fields).
Proof.
  intros IH raw opts t Hparse. destruct raw as [| | | | |entries]; try discriminate.
  rewrite parse_object in Hparse.
  destruct (gatherFields (fieldResults opts parse fields entries)) as [parsed|] eqn:Hg;
    [|discriminate].
  injection Hparse as <-. apply gatherFields_valid in Hg as [Hvalid Hdef].
  assert (Hparsed : ∀ key field, fields !! key = Some field →
            match entries !! key with
            | Some v => ∃ a, parse field.2 v (descend opts key) = Valid a
                             ∧ parsed !! key = Some a
            | None => field.1 = true ∧ parsed !! key = None
            end).
  { intros key field Hf. rewrite Hdef, lookup_omap, lookup_fieldResults, Hf. simpl.
    pose proof (Hvalid key) as Hk. rewrite lookup_fieldResults, Hf in Hk. simpl in Hk.
    destruct (entries !! key) as [v|].
    - destruct (isValid_true _ (Hk _ eq_refl)) as [a Ha]. exists a. by rewrite Ha.
    - destruct field.1; [done|]. by specialize (Hk _ eq_refl). }
  set (results := fieldResults opts serialize fields parsed).
  assert (Hser : ∀ key field, fields !! key = Some field →
            match entries !! key with
            | Some v =>
                ∃ raw', results !! key = Some (Valid raw')
                  ∧ (∀ a, parse field.2 v (descend (withPassthrough opts) key) = Valid a →
                          parsed !! key = Some a → raw' = v)
            | None => results !! key = None
            end).
  { intros key field Hf. specialize (Hparsed key field Hf).
    unfold results. rewrite lookup_fieldResults, Hf. simpl.
    destruct (entries !! key) as [v|].
    - destruct Hparsed as (a & Ha & Hk). rewrite Hk.
      destruct (IH key field Hf _ _ _ Ha) as (raw' & Hs & Hback).
      exists raw'. rewrite Hs. split; [done|]. intros a' Ha' Hk'.
      apply Hback. injection Hk' as <-. exact Ha'.
    - destruct Hparsed as [Hopt Hk]. by rewrite Hk, Hopt. }
  assert (Hall : map_Forall (λ _ r, isValid r = true) results).
  { intros key r Hr. destruct (fields !! key) as [field|] eqn:Hf.
    - specialize (Hser key field Hf). destruct (entries !! key).
      + destruct Hser as (raw' & Hr' & _). rewrite Hr' in Hr. by injection Hr as <-.
      + congruence.
    - unfold results in Hr. rewrite lookup_fieldResults, Hf in Hr. discriminate. }
  eexists. split.
  - rewrite serialize_object. fold results.
    rewrite (gatherFields_all_valid _ Hall). reflexivity.
  - intros Hpass. f_equal. rewrite parse_object in Hpass.
    destruct (gatherFields (fieldResults (withPassthrough opts) parse fields entries))
      as [parsed'|] eqn:Hg'; [|discriminate].
    change (isPassthrough (withPassthrough opts)) with true in Hpass.
    injection Hpass as Hparsed' Hextra.
    apply gatherFields_valid in Hg' as [Hvalid' Hdef'].
    apply map_eq. intros key. rewrite lookup_union, lookup_omap.
    destruct (fields !! key) as [field|] eqn:Hf.
    + specialize (Hser key field Hf). destruct (entries !! key) as [v|] eqn:He.
      * destruct Hser as (raw' & Hr & Hback). rewrite Hr. simpl.
        assert (raw' = v) as ->.
        { pose proof (Hvalid' key) as Hk'.
          rewrite lookup_fieldResults, Hf in Hk'. simpl in Hk'. rewrite He in Hk'.
          destruct (isValid_true _ (Hk' _ eq_refl)) as [a' Ha'].
          apply (Hback a' Ha'). rewrite <- Hparsed', Hdef'.
          rewrite lookup_omap, lookup_fieldResults, Hf. simpl. by rewrite He, Ha'. }
        match goal with |- Some _ ∪ ?o = _ => by destruct o end.
      * rewrite Hser. simpl. destruct (isPassthrough opts); [|by rewrite lookup_empty].
        rewrite map_lookup_filter, He. done.
    + unfold results. rewrite lookup_fieldResults, Hf. simpl.
      rewrite (left_id None _).
      destruct (isPassthrough opts) eqn:Hp.
      * rewrite map_lookup_filter. destruct (entries !! key) as [v|]; simpl; [|done].
        by rewrite option_guard_True.
      * rewrite lookup_empty. destruct (entries !! key) as [v|] eqn:He; [|done].
        exfalso. apply (f_equal (.!! key)) in Hextra.
        rewrite lookup_empty, map_lookup_filter, He in Hextra. simpl in Hextra.
        by rewrite option_guard_True in Hextra.
Qed.

(** Every schema writes back what it parsed. *)
Lemma writesBack_all s : writesBack s.
Proof.
  induction s using Schema_nested_ind;
    auto using writesBack_primitive, writesBack_enum, writesBack_object,
      writesBack_list, writesBack_union.
Qed.

Lemma gatherFields_reports {A} (results : gmap string (MaybeValid A)) key r e :
  results !! key = Some r → e ∈ issues r →
  e ∈ map_fold (λ _ r acc, issues r ++ acc) [] results.
Proof.
  revert key r e.
  apply (map_fold_weak_ind
           (λ acc (m : gmap string (MaybeValid A)),
              ∀ key r e, m !! key = Some r → e ∈ issues r → e ∈ acc)).
  - intros key r e Hk. by rewrite lookup_empty in Hk.
  - intros key r m acc Hnone IH key' r' e Hk He. apply elem_of_app.
    destruct (decide (key = key')) as [->|Hne].
    + rewrite lookup_insert_eq in Hk. injection Hk as ->. by left.
    + rewrite lookup_insert_ne in Hk by done. right. eauto.
Qed.

Lemma forallb_false {A} (f : A → bool) (l : list A) :
  forallb f l = false → ∃ x, x ∈ l ∧ f x = false.
Proof.
  induction l as [|x l IH]; simpl; [discriminate|].
  destruct (f x) eqn:Hx; simpl.
  - intros H. destruct (IH H) as (y & Hy & Hf). exists y. split; [by right|done].
  - intros _. exists x. split; [by left|done].
Qed.

(** A failure always reports something. *)
Lemma parse_reports s : ∀ raw opts errs,
  parse s raw opts = Invalid errs → errs ≠ [].
Proof.
  induction s as [ | | |values|fields IH|item IH|alternatives IH]
    using Schema_nested_ind; intros raw opts errs Hparse.
  - destruct raw; try discriminate; by injection Hparse as <-.
  - destruct raw; try discriminate; by injection Hparse as <-.
  - destruct raw; try discriminate; by injection Hparse as <-.
  - destruct raw; simpl in Hparse; try (by injection Hparse as <-).
    case_match; [discriminate|by injection Hparse as <-].
  - destruct raw as [| | | | |entries]; try (by injection Hparse as <-).
    rewrite parse_object in Hparse.
    destruct (gatherFields _) as [parsed|errs'] eqn:Hgather; [discriminate|].
    injection Hparse as <-.
    unfold gatherFields in Hgather. case_bool_decide as Hall; [discriminate|].
    injection Hgather as <-.
    apply map_not_Forall in Hall; [|apply _].
    destruct Hall as (key & r & Hkey & Hr).
    destruct r as [a|errs0]; [done|].
    assert (errs0 ≠ []) as Hne.
    { rewrite lookup_fieldResults in Hkey.
      destruct (fields !! key) as [field|] eqn:Hfield; [|discriminate].
      simpl in Hkey. destruct (entries !! key) as [v|].
      - injection Hkey as Hkey. by apply (IH key field Hfield _ _ _ Hkey).
      - destruct field.1; [discriminate|]. by injection Hkey as <-. }
    destruct errs0 as [|e errs0]; [done|].
    intros Hnil.
    pose proof (gatherFields_reports _ key _ e Hkey (list_elem_of_here _ _)) as He.
    rewrite Hnil in He. by apply elem_of_nil in He.
  - destruct raw as [| | | |items|]; try (by injection Hparse as <-).
    rewrite parse_list in Hparse.
    destruct (gatherItems _) as [parsed|errs'] eqn:Hgather; [discriminate|].
    injection Hparse as <-.
    unfold gatherItems in Hgather.
    destruct (forallb isValid _) eqn:Hall; [discriminate|]. injection Hgather as <-.
    apply forallb_false in Hall as (r & Hin & Hr).
    destruct r as [a|errs0]; [done|].
    assert (errs0 ≠ []) as Hne.
    { apply list_elem_of_lookup in Hin as [i Hi]. rewrite lookup_itemResults in Hi.
      destruct (items !! i) as [v|]; [|discriminate]. injection Hi as Hi.
      by apply (IH _ _ _ Hi). }
    destruct errs0 as [|e errs0]; [done|].
    intros Hnil.
    assert (e ∈ concat (issues <$> itemResults opts (parse item) items)) as He.
    { apply list_elem_of_In, in_concat. exists (e :: errs0). split.
      - apply list_elem_of_In, list_elem_of_fmap. by exists (Invalid (e :: errs0)).
      - by left. }
    rewrite Hnil in He. by apply elem_of_nil in He.
  - simpl in Hparse.
    destruct (firstMatch _ _ _); [discriminate|].
    destruct (allowUnrecognizedUnionMembers opts); [discriminate|].
    by injection Hparse as <-.
Qed.

Lemma withPassthrough_id opts :
  unrecognizedObjectKeys opts = passthrough → withPassthrough opts = opts.
Proof. destruct opts; simpl. by intros ->. Qed.

(** C3 (as the engine has it): a value produced by a successful parse is
    always written back without failure under the same options; what is
    written back is the original value whenever unrecognized keys are retained
    (passthrough), and more generally whenever parsing dropped nothing, that
    is, whenever the passthrough parse yields the same typed value. *)
Theorem round_trip s raw opts t :
  parse s raw opts = Valid t →
  (∃ raw', serialize s t opts = Valid raw')
  ∧ (unrecognizedObjectKeys opts = passthrough → serialize s t opts = Valid raw)
  ∧ (parse s raw (withPassthrough opts) = Valid t → serialize s t opts = Valid raw).
Proof.
  intros Hparse. destruct (writesBack_all s raw opts t Hparse) as (raw' & Hser & Hback).
  split; [eauto|]. split.
  - intros Hkeys. rewrite Hser. f_equal. apply Hback.
    by rewrite (withPassthrough_id opts Hkeys).
  - intros Hpass. rewrite Hser. f_equal. by apply Hback.
Qed.

(** C4: against the [DatasetItemSource] enum, the string "unexpected" fails
    with the single breadcrumb ["response"] when unrecognized enum values are
    not allowed, and is kept verbatim when they are. *)
Theorem dataset_item_source_unexpected keys unions :
  (∃ message,
     parse DatasetItemSource (RStr "unexpected")
       (mkSchemaOptions keys unions false ["response"])
     = Invalid [(["response"], message)]
     ∧ parseOrThrow DatasetItemSource (RStr "unexpected")
         (mkSchemaOptions keys unions false ["response"])
       = Thrown (ParseError [(["response"], message)]))
  ∧ parse DatasetItemSource (RStr "unexpected")
      (mkSchemaOptions keys unions true ["response"])
    = Valid (TEnum "unexpected")
  ∧ parseOrThrow DatasetItemSource (RStr "unexpected")
      (mkSchemaOptions keys unions true ["response"])
    = Returned (TEnum "unexpected").
Proof.
  split; [exists "Expected enum"; split; reflexivity|].
  split; reflexivity.
Qed.

Lemma descend_path path : ∀ opts,
  unrecognizedObjectKeys (foldl descend opts path) = unrecognizedObjectKeys opts
  ∧ allowUnrecognizedUnionMembers (foldl descend opts path)
    = allowUnrecognizedUnionMembers opts
  ∧ allowUnrecognizedEnumValues (foldl descend opts path)
    = allowUnrecognizedEnumValues opts
  ∧ breadcrumbsPrefix (foldl descend opts path) = breadcrumbsPrefix opts ++ path.
Proof.
  induction path as [|name path IH]; intros opts; simpl.
  - by rewrite app_nil_r.
  - destruct (IH (descend opts name)) as (-> & -> & -> & ->). simpl.
    by rewrite <- app_assoc.
Qed.

Lemma sameFlags_path path : ∀ opts, sameFlags opts (foldl descend opts path).
Proof.
  intros opts. destruct (descend_path path opts) as (Hk & Hu & He & _).
  by repeat split.
Qed.

Lemma gatherFields_validValue {A} (results results' : gmap string (MaybeValid A)) :
  (∀ key, validValue <$> results !! key = validValue <$> results' !! key) →
  validValue (gatherFields results) = validValue (gatherFields results').
Proof.
  intros Hsame.
  assert (Hvalues : omap validValue results = omap validValue results').
  { apply map_eq. intros key. rewrite !lookup_omap.
    specialize (Hsame key).
    destruct (results !! key), (results' !! key); simpl in *; congruence. }
  assert (Hall : ∀ (m m' : gmap string (MaybeValid A)),
            (∀ key, validValue <$> m !! key = validValue <$> m' !! key) →
            map_Forall (λ _ r, isValid r = true) m →
            map_Forall (λ _ r, isValid r = true) m').
  { intros m m' Hm Hvalid key r' Hr'. specialize (Hm key). rewrite Hr' in Hm.
    destruct (m !! key) as [r|] eqn:Hr; [|discriminate].
    specialize (Hvalid key r Hr). simpl in Hm.
    destruct r, r'; simpl in *; congruence. }
  unfold gatherFields. rewrite Hvalues.
  destruct (decide (map_Forall (λ _ r, isValid r = true) results)) as [Hv|Hv],
    (decide (map_Forall (λ _ r, isValid r = true) results')) as [Hv'|Hv'].
  - by rewrite !bool_decide_eq_true_2.
  - destruct Hv'. by apply (Hall results).
  - destruct Hv. by apply (Hall results').
  - by rewrite !bool_decide_eq_false_2.
Qed.

Lemma gatherItems_validValue {A} (results results' : list (MaybeValid A)) :
  validValue <$> results = validValue <$> results' →
  validValue (gatherItems results) = validValue (gatherItems results').
Proof.
  revert results'. unfold gatherItems.
  induction results as [|r results IH]; intros [|r' results'] Hsame;
    try discriminate; [done|].
  injection Hsame as Hr Hrest. specialize (IH _ Hrest).
  destruct r as [a|e], r' as [a'|e']; simpl in *; try discriminate; [|done].
  injection Hr as <-.
  destruct (forallb isValid results), (forallb isValid results'); simpl in *;
    try discriminate; [|done].
  injection IH as IH.
  change (Some (a :: omap validValue results) = Some (a :: omap validValue results')).
  by rewrite IH.
Qed.

Lemma firstMatch_validValue accept accept' alternatives :
  Forall (λ alt, validValue (accept alt) = validValue (accept' alt)) alternatives →
  ∀ i, firstMatch accept alternatives i = firstMatch accept' alternatives i.
Proof.
  induction 1 as [|alt rest Halt _ IH]; intros i; [done|]. simpl.
  destruct (accept alt), (accept' alt); simpl in *; try discriminate.
  - by injection Halt as <-.
  - apply IH.
Qed.

(** The outcome of parsing depends on the context only through its flags: the
    breadcrumb prefix decides where failures are reported, never whether a
    value is accepted nor what it is read as. *)
Lemma parse_flags_only s : ∀ raw opts opts',
  sameFlags opts opts' →
  validValue (parse s raw opts) = validValue (parse s raw opts').
Proof.
  induction s as [ | | |values|fields IH|item IH|alternatives IH]
    using Schema_nested_ind; intros raw opts opts' (Hkeys & Hunions & Henums).
  - by destruct raw.
  - by destruct raw.
  - by destruct raw.
  - destruct raw; try done. simpl. rewrite Henums. by case_match.
  - destruct raw as [| | | | |entries]; try done.
    rewrite !parse_object.
    pose proof (gatherFields_validValue
                  (fieldResults opts parse fields entries)
                  (fieldResults opts' parse fields entries)) as Hg.
    unfold isPassthrough. rewrite Hkeys.
    destruct (gatherFields (fieldResults opts parse fields entries)),
      (gatherFields (fieldResults opts' parse fields entries)); simpl in *.
    + assert (Some value = Some value0) as [= ->]; [|done].
      apply Hg. intros key. rewrite !lookup_fieldResults.
      destruct (fields !! key) as [field|] eqn:Hfield; [|done]. simpl.
      destruct (entries !! key); simpl; [|by destruct field.1].
      f_equal. by apply (IH key field Hfield).
    + exfalso. assert (Some value = None) as [=]. apply Hg.
      intros key. rewrite !lookup_fieldResults.
      destruct (fields !! key) as [field|] eqn:Hfield; [|done]. simpl.
      destruct (entries !! key); simpl; [|by destruct field.1].
      f_equal. by apply (IH key field Hfield).
    + exfalso. assert (None = Some value) as [=]. apply Hg.
      intros key. rewrite !lookup_fieldResults.
      destruct (fields !! key) as [field|] eqn:Hfield; [|done]. simpl.
      destruct (entries !! key); simpl; [|by destruct field.1].
      f_equal. by apply (IH key field Hfield).
    + done.
  - destruct raw as [| | | |items|]; try done.
    rewrite !parse_list.
    pose proof (gatherItems_validValue
                  (itemResults opts (parse item) items)
                  (itemResults opts' (parse item) items)) as Hg.
    assert (Hsame : validValue <$> itemResults opts (parse item) items
                    = validValue <$> itemResults opts' (parse item) items).
    { apply list_eq. intros i. rewrite !list_lookup_fmap, !lookup_itemResults.
      destruct (items !! i); [|done]. simpl. f_equal. by apply IH. }
    specialize (Hg Hsame).
    destruct (gatherItems (itemResults opts (parse item) items)),
      (gatherItems (itemResults opts' (parse item) items)); simpl in *;
      try discriminate; [|done].
    by injection Hg as ->.
  - simpl. rewrite Hunions.
    rewrite (firstMatch_validValue (λ alt, parse alt raw opts)
               (λ alt, parse alt raw opts') alternatives).
    + destruct (firstMatch _ _ _); [done|]. by case_match.
    + eapply Forall_impl; [exact IH|]. intros alt Halt. by apply Halt.
Qed.

Lemma refusedHere_flags opts opts' s raw :
  sameFlags opts opts' → refusedHere opts s raw = refusedHere opts' s raw.
Proof.
  intros Hsame. pose proof Hsame as (Hkeys & Hunions & Henums).
  destruct s as [| | |values|fields|item|alternatives]; try done.
  - destruct raw; try done. simpl. by rewrite Henums.
  - assert (forallb (λ alt, negb (isValid (parse alt raw opts))) alternatives
            = forallb (λ alt, negb (isValid (parse alt raw opts'))) alternatives) as Hall.
    { induction alternatives as [|alt rest IHr]; [done|]. simpl.
      rewrite IHr. f_equal. f_equal.
      pose proof (parse_flags_only alt raw opts opts' Hsame) as Hv.
      destruct (parse alt raw opts), (parse alt raw opts'); simpl in *; congruence. }
    destruct raw; simpl; by rewrite Hunions, Hall.
Qed.

Lemma Offending_flags opts opts' s raw path :
  sameFlags opts opts' → Offending opts s raw path → Offending opts' s raw path.
Proof.
  intros Hsame. induction 1.
  - apply Offending_here. by rewrite <- (refusedHere_flags opts opts').
  - by eapply Offending_missing.
  - by eapply Offending_field.
  - by eapply Offending_item.
Qed.

Lemma firstMatch_none accept alternatives : ∀ i,
  firstMatch accept alternatives i = None →
  forallb (λ alt, negb (isValid (accept alt))) alternatives = true.
Proof.
  induction alternatives as [|alt rest IH]; intros i Hm; [done|].
  simpl in *. destruct (accept alt); [discriminate|]. simpl. by eapply IH.
Qed.

Lemma offending_failure {A} opts s raw message errs :
  @failure A opts message = Invalid errs →
  refusedHere opts s raw = true →
  Forall (λ e : list string * string,
            ∃ path, e.1 = breadcrumbsPrefix opts ++ path ∧ Offending opts s raw path) errs.
Proof.
  intros [= <-] Hrefused. constructor; [|constructor].
  exists []. simpl. rewrite app_nil_r. split; [done|]. by apply Offending_here.
Qed.

(** Every reported breadcrumb is the prefix the engine was entered with,
    followed by the path to an offending field of the document. *)
Lemma parse_locates s : ∀ raw opts errs,
  parse s raw opts = Invalid errs →
  Forall (λ e : list string * string,
            ∃ path, e.1 = breadcrumbsPrefix opts ++ path ∧ Offending opts s raw path) errs.
Proof.
  induction s as [ | | |values|fields IH|item IH|alternatives IH]
    using Schema_nested_ind; intros raw opts errs Hparse.
  - destruct raw; try discriminate; by apply (offending_failure _ _ _ _ _ Hparse).
  - destruct raw; try discriminate; by apply (offending_failure _ _ _ _ _ Hparse).
  - destruct raw; try discriminate; by apply (offending_failure _ _ _ _ _ Hparse).
  - destruct raw; simpl in Hparse;
      try (by apply (offending_failure _ _ _ _ _ Hparse)).
    destruct (knownEnumValue values s || allowUnrecognizedEnumValues opts) eqn:Hknown;
      [discriminate|].
    apply (offending_failure _ _ _ _ _ Hparse). simpl. by rewrite Hknown.
  - destruct raw as [| | | | |entries];
      try (by apply (offending_failure _ _ _ _ _ Hparse)).
    rewrite parse_object in Hparse.
    destruct (gatherFields _) as [parsed|errs'] eqn:Hgather; [discriminate|].
    injection Hparse as <-.
    apply Forall_forall. intros e He.
    destruct (gatherFields_invalid _ _ _ Hgather He) as (key & r & Hkey & Hr).
    rewrite lookup_fieldResults in Hkey.
    destruct (fields !! key) as [field|] eqn:Hfield; [|discriminate]. simpl in Hkey.
    destruct (entries !! key) as [v|] eqn:Hentry.
    + injection Hkey as <-.
      destruct (parse field.2 v (descend opts key)) as [a|errs''] eqn:Hfieldparse;
        [by apply elem_of_nil in Hr|].
      pose proof (IH key field Hfield _ _ _ Hfieldparse) as Hloc.
      destruct (proj1 (Forall_forall _ _) Hloc e Hr) as (path & Hcrumb & Hoff).
      exists (key :: path). split.
      * rewrite Hcrumb. simpl. by rewrite <- app_assoc.
      * eapply Offending_field; [done..|].
        eapply Offending_flags; [|exact Hoff]. done.
    + destruct field.1 eqn:Hopt; [discriminate|]. injection Hkey as <-.
      simpl in Hr. apply list_elem_of_singleton in Hr as ->.
      exists [key]. split; [done|]. by eapply Offending_missing.
  - destruct raw as [| | | |items|];
      try (by apply (offending_failure _ _ _ _ _ Hparse)).
    rewrite parse_list in Hparse.
    destruct (gatherItems _) as [parsed|errs'] eqn:Hgather; [discriminate|].
    injection Hparse as <-.
    apply Forall_forall. intros e He.
    destruct (gatherItems_invalid _ _ _ Hgather He) as (r & Hin & Hr).
    apply list_elem_of_lookup in Hin as [i Hi].
    rewrite lookup_itemResults in Hi.
    destruct (items !! i) as [v|] eqn:Hitem; [|discriminate]. injection Hi as <-.
    destruct (parse item v (descend opts (pretty i))) as [a|errs''] eqn:Hitemparse;
      [by apply elem_of_nil in Hr|].
    destruct (proj1 (Forall_forall _ _) (IH _ _ _ Hitemparse) e Hr)
      as (path & Hcrumb & Hoff).
    exists (pretty i :: path). split.
    + rewrite Hcrumb. simpl. by rewrite <- app_assoc.
    + eapply Offending_item; [done|].
      eapply Offending_flags; [|exact Hoff]. done.
  - simpl in Hparse.
    destruct (firstMatch _ _ _) eqn:Hm; [discriminate|].
    destruct (allowUnrecognizedUnionMembers opts) eqn:Hunions; [discriminate|].
    apply (offending_failure _ _ _ _ _ Hparse).
    assert (refusedHere opts (SUnion alternatives) raw
            = negb (allowUnrecognizedUnionMembers opts)
              && forallb (λ alt, negb (isValid (parse alt raw opts))) alternatives) as ->
      by (by destruct raw).
    rewrite Hunions. simpl. by eapply firstMatch_none.
Qed.

(** Every part of an accepted document was accepted, as the value found at
    its place, under the context reached by descending along its path. *)
Lemma parse_parts s raw t path s' raw' t' :
  PartAt s raw t path s' raw' t' →
  ∀ opts, parse s raw opts = Valid t →
          parse s' raw' (foldl descend opts path) = Valid t'.
Proof.
  induction 1 as [s raw t
                 |fields entries parsed extra key field v tv path s' raw' t'
                    Hfield Hentry Hparsed _ IH
                 |item items parsed i v tv path s' raw' t' Hitem Hparsed _ IH
                 |alternatives j alt raw tv path s' raw' t' Halt _ IH];
    intros opts Hparse.
  - done.
  - simpl. apply IH. rewrite parse_object in Hparse.
    destruct (gatherFields _) as [parsed0|] eqn:Hgather; [|discriminate].
    injection Hparse as -> _.
    apply gatherFields_valid in Hgather as [_ ->].
    rewrite lookup_omap, lookup_fieldResults, Hfield in Hparsed. simpl in Hparsed.
    rewrite Hentry in Hparsed. simpl in Hparsed.
    by destruct (parse field.2 v (descend opts key)); simplify_eq/=.
  - simpl. apply IH. rewrite parse_list in Hparse.
    destruct (gatherItems _) as [parsed0|] eqn:Hgather; [|discriminate].
    injection Hparse as ->. apply gatherItems_valid in Hgather.
    apply (f_equal (.!! i)) in Hgather.
    rewrite lookup_itemResults, list_lookup_fmap, Hitem, Hparsed in Hgather.
    by injection Hgather as ->.
  - apply IH. simpl in Hparse.
    destruct (firstMatch _ _ _) as [t0|] eqn:Hm.
    + injection Hparse as ->.
      destruct (firstMatch_some _ _ _ _ Hm) as (j' & alt' & a & [= -> ->] & Hj & Ha).
      simpl in Halt. by simplify_eq.
    + by destruct (allowUnrecognizedUnionMembers opts).
Qed.

Section ResponseParsingFacts.

Context (OpikApiEnvironment_Default : string).
Context (urlJoin : string → string → string).
Context (RUNTIME_type RUNTIME_version : string).
Context (BiInformationResponse TraceCountResponse : Schema).

Local Notation request :=
  (SystemUsage.request OpikApiEnvironment_Default urlJoin RUNTIME_type RUNTIME_version).
Local Notation schemaOf := (schemaOf BiInformationResponse TraceCountResponse).
Local Notation call :=
  (invoke OpikApiEnvironment_Default urlJoin RUNTIME_type RUNTIME_version
     BiInformationResponse TraceCountResponse).

(** C9 (as the engine has it): a validation failure reports at least one
    breadcrumb, and each breadcrumb is the prefix the engine was entered with
    followed by the path, through object keys and list indices, to the
    offending field: the value refused at its node under the flags of the
    call, or the required key that is missing.  So a breadcrumb is non-empty
    whenever the prefix is.  Every [SystemUsage] method enters the engine with
    the prefix ["response"] and with passthrough keys and permissive unions
    and enums: every breadcrumb of a response-parsing error is "response"
    followed by the path to the offending field of the response body.  The
    flags apply to the whole document: every part of an accepted document was
    accepted under the context reached along its path, which carries the
    flags of the call, and what a value is read as depends on the context
    through its flags alone; for a [SystemUsage] call these are the flags set
    at the call site, at every path of the response. *)
Theorem breadcrumbs_extend_prefix fetcher op _options requestOptions :
  let args := request _options (pathOf op) requestOptions in
  let promise := APIPromise.responsePromise (call fetcher op _options requestOptions) in
  (∀ s raw opts errs,
     parse s raw opts = Invalid errs →
     errs ≠ []
     ∧ Forall (λ e : list string * string,
                 ∃ path, e.1 = breadcrumbsPrefix opts ++ path
                         ∧ Offending opts s raw path
                         ∧ (breadcrumbsPrefix opts ≠ [] → e.1 ≠ [])) errs)
  ∧ (∀ errs,
       promise = Thrown (ParseError errs) →
       errs ≠ []
       ∧ ∃ body headers,
           fetcher args = Fetcher.Success body headers
           ∧ Forall (λ e : list string * string,
                       ∃ path, e.1 = "response" :: path
                               ∧ Offending SystemUsage.responseOptions
                                   (schemaOf op) body path) errs)
  ∧ (∀ s raw opts t path s' raw' t',
       parse s raw opts = Valid t →
       PartAt s raw t path s' raw' t' →
       let context := foldl descend opts path in
       sameFlags opts context
       ∧ breadcrumbsPrefix context = breadcrumbsPrefix opts ++ path
       ∧ parse s' raw' context = Valid t')
  ∧ (∀ s raw opts opts',
       sameFlags opts opts' →
       validValue (parse s raw opts) = validValue (parse s raw opts'))
  ∧ (∀ response,
       promise = Returned (Some response) →
       ∃ body headers,
         fetcher args = Fetcher.Success body headers
         ∧ ∀ path s' raw' t',
             PartAt (schemaOf op) body (SystemUsage.body response) path s' raw' t' →
             parse s' raw' (foldl descend SystemUsage.responseOptions path) = Valid t')
  ∧ (∀ path,
       let context := foldl descend SystemUsage.responseOptions path in
       unrecognizedObjectKeys context = passthrough
       ∧ allowUnrecognizedUnionMembers context = true
       ∧ allowUnrecognizedEnumValues context = true
       ∧ breadcrumbsPrefix context = "response" :: path).
Proof.
  intros args promise. split_and!.
  - intros s raw opts errs Hparse. split; [by eapply parse_reports|].
    eapply Forall_impl; [by eapply parse_locates|].
    intros [crumb message] (path & Hcrumb & Hoff). simpl in *.
    exists path. split_and!; [done..|].
    intros Hne Hnil. rewrite Hnil in Hcrumb.
    symmetry in Hcrumb. by apply app_eq_nil in Hcrumb as [? _].
  - intros errs Hthrown. subst promise. rewrite invoke_settles in Hthrown.
    fold args in Hthrown.
    destruct (fetcher args) as [b hs|error]; simpl in Hthrown.
    + unfold parseOrThrow in Hthrown.
      destruct (parse (schemaOf op) b SystemUsage.responseOptions)
        as [t|errs'] eqn:Hparse; simpl in Hthrown; [discriminate|].
      injection Hthrown as ->. split; [by eapply parse_reports|].
      exists b, hs. split; [done|].
      exact (parse_locates _ _ SystemUsage.responseOptions _ Hparse).
    + repeat case_match; discriminate.
  - intros s raw opts t path s' raw' t' Hparse Hpart context. subst context.
    split_and!.
    + apply sameFlags_path.
    + by destruct (descend_path path opts) as (_ & _ & _ & ->).
    + by eapply parse_parts.
  - intros s raw opts opts'. apply parse_flags_only.
  - intros response Hreturned. subst promise. rewrite invoke_settles in Hreturned.
    fold args in Hreturned.
    destruct (fetcher args) as [b hs|error]; simpl in Hreturned.
    + unfold parseOrThrow in Hreturned.
      destruct (parse (schemaOf op) b SystemUsage.responseOptions)
        as [t|errs'] eqn:Hparse; simpl in Hreturned; [|discriminate].
      injection Hreturned as <-. exists b, hs. split; [done|].
      intros path s' raw' t' Hpart. simpl in Hpart. by eapply parse_parts.
    + repeat case_match; discriminate.
  - intros path context. subst context.
    by destruct (descend_path path SystemUsage.responseOptions) as (-> & -> & -> & ->).
Qed.

End ResponseParsingFacts.


(* ===================================================================== *)
(** ** Worked instances                                                   *)
(* ===================================================================== *)

(** A 404 from the executor is raised by [getDatasetBiInfo]; it is not
    returned as a value. *)
Lemma not_found_is_thrown :
  let promise :=
    APIPromise.responsePromise
      (SystemUsage.getDatasetBiInfo Example.environment Example.urlJoin
         Example.runtimeType Example.runtimeVersion Example.BiInformationResponse
         (Example.failing Example.notFound) Example.noOptions None) in
  promise = Thrown (OpikApiError (Some 404%Z)
                      (Some (RObj {[ "message" := RStr "not found" ]})) None)
  ∧ ∀ value, promise ≠ Returned value.
Proof. split; [reflexivity|]. intros value. discriminate. Qed.

Lemma failures_are_thrown_witness :
  APIPromise.responsePromise
    (Example.call (Example.failing Example.notFound) GetDatasetBiInfo
       Example.noOptions None)
  = Thrown (OpikApiError (Some 404%Z)
              (Some (RObj {[ "message" := RStr "not found" ]})) None).
Proof.
  exact (proj1 (failures_are_thrown Example.environment Example.urlJoin
                  Example.runtimeType Example.runtimeVersion
                  Example.BiInformationResponse Example.TraceCountResponse
                  (Example.failing Example.notFound) GetDatasetBiInfo
                  Example.noOptions None Example.notFound eq_refl) eq_refl).
Defined.



(** Under strict keys the undeclared key of [annotatedDetail] is dropped by
    [parse], so writing the parsed value back does not give the value that
    was parsed. *)
Lemma round_trip_loses_dropped_key :
  ∃ t, parse NumericalFeedbackDetailUpdate Example.annotatedDetail Example.strictOptions
       = Valid t
       ∧ serialize NumericalFeedbackDetailUpdate t Example.strictOptions
         = Valid Example.plainDetail
       ∧ serialize NumericalFeedbackDetailUpdate t Example.strictOptions
         ≠ Valid Example.annotatedDetail.
Proof.
  eexists. split; [vm_compute; reflexivity|]. split; [vm_compute; reflexivity|].
  intros Heq. vm_compute in Heq. discriminate.
Qed.

Lemma round_trip_witness :
  serialize NumericalFeedbackDetailUpdate
    (TObject {[ "max" := TNumber 1; "min" := TNumber 0 ]} {[ "note" := RStr "x" ]})
    Example.passthroughOptions
  = Valid Example.annotatedDetail.
Proof.
  refine (proj1 (proj2 (round_trip NumericalFeedbackDetailUpdate
                          Example.annotatedDetail Example.passthroughOptions _ _))
            eq_refl).
  vm_compute. reflexivity.
Defined.

Lemma bounded_retries_witness :
  let args := Example.request Example.noOptions (pathOf GetTracesBiInfo) None in
  let run := Fetcher.execute Example.parseJson Fetcher.defaultRetryableStatus
               Example.flaky args in
  Fetcher.response run = Fetcher.Success (RObj ∅) ∅ ∧ length (Fetcher.sent run) = 3.
Proof.
  intros args run.
  destruct (bounded_retries Example.parseJson Fetcher.defaultRetryableStatus
              Example.flaky args) as (_ & _ & _ & Hquiet).
  destruct (Hquiet eq_refl) as (_ & _ & Hscenario & _).
  exact (Hscenario eq_refl _ _ _ _ eq_refl eq_refl eq_refl).
Defined.

Lemma timeout_handed_to_fetcher_witness :
  Fetcher.timeoutMs
    (Example.request Example.noOptions (pathOf GetExperimentBiInfo)
       (Some (Example.requestOptions (Some 0.5%float) None None None)))
  = 500%float
  ∧ Fetcher.timeoutMs
      (Example.request Example.noOptions (pathOf GetExperimentBiInfo)
         (Some (Example.requestOptions (Some 9007199254740991%float) None None None)))
    = 9007199254740990976%float
  ∧ Fetcher.timeoutMs
      (Example.request Example.noOptions (pathOf GetExperimentBiInfo) None)
    = 60000%float.
Proof.
  split; [|split].
  - exact (proj1 (proj2 (timeout_handed_to_fetcher Example.environment Example.urlJoin
                           Example.runtimeType Example.runtimeVersion
                           Example.BiInformationResponse Example.TraceCountResponse
                           (Example.failing Example.notFound) GetExperimentBiInfo
                           Example.noOptions
                           (Some (Example.requestOptions (Some 0.5%float)
                                    None None None))))
             0.5%float eq_refl).
  - exact (proj1 (proj2 (timeout_handed_to_fetcher Example.environment Example.urlJoin
                           Example.runtimeType Example.runtimeVersion
                           Example.BiInformationResponse Example.TraceCountResponse
                           (Example.failing Example.notFound) GetExperimentBiInfo
                           Example.noOptions
                           (Some (Example.requestOptions (Some 9007199254740991%float)
                                    None None None))))
             9007199254740991%float eq_refl).
  - exact (proj1 (proj2 (proj2 (timeout_handed_to_fetcher Example.environment
                           Example.urlJoin
                           Example.runtimeType Example.runtimeVersion
                           Example.BiInformationResponse Example.TraceCountResponse
                           (Example.failing Example.notFound) GetExperimentBiInfo
                           Example.noOptions None)) eq_refl)).
Defined.

Lemma environment_falls_back_to_default_witness :
  Fetcher.url
    (Example.request Example.noOptions (pathOf GetTracesCountForWorkspaces) None)
  = "http://localhost:5173/api/v1/internal/usage/workspace-trace-counts".
Proof.
  exact (proj1 (environment_falls_back_to_default Example.environment Example.urlJoin
                  Example.runtimeType Example.runtimeVersion
                  Example.BiInformationResponse Example.TraceCountResponse
                  (Example.failing Example.notFound) GetTracesCountForWorkspaces
                  Example.noOptions None eq_refl)).
Defined.

(** The workspace-name supplier resolves to "team-a", yet the per-call
    headers put "team-b" in the Comet-Workspace header. *)
Lemma workspace_header_overridden :
  let args :=
    SystemUsage.request Example.environment Example.urlJoin Example.runtimeType
      Example.runtimeVersion Example.teamOptions "v1/internal/usage/bi-datasets"
      (Some (Example.requestOptions None None None
               (Some {[ "Comet-Workspace" := "team-b" ]}))) in
  Supplier.get (SystemUsage.Options.workspaceName Example.teamOptions) = Some "team-a"
  ∧ sentHeader args "Comet-Workspace" = Some "team-b"
  ∧ sentHeader args "Comet-Workspace" ≠ Some "team-a".
Proof.
  split; [reflexivity|]. split; [vm_compute; reflexivity|].
  intros Heq. vm_compute in Heq. discriminate.
Qed.

Lemma workspace_header_witness :
  sentHeader (Example.request Example.teamOptions (pathOf GetDatasetBiInfo) None)
    "Comet-Workspace" = Some "team-a"
  ∧ sentHeader (Example.request Example.noOptions (pathOf GetDatasetBiInfo) None)
      "Comet-Workspace" = None.
Proof.
  split.
  - exact (proj2 (proj1 (proj2 (workspace_header Example.environment Example.urlJoin
                           Example.runtimeType Example.runtimeVersion
                           Example.BiInformationResponse Example.TraceCountResponse
                           (Example.failing Example.notFound) GetDatasetBiInfo
                           Example.teamOptions None)) eq_refl) "team-a" eq_refl).
  - exact (proj1 (proj1 (proj2 (workspace_header Example.environment Example.urlJoin
                           Example.runtimeType Example.runtimeVersion
                           Example.BiInformationResponse Example.TraceCountResponse
                           (Example.failing Example.notFound) GetDatasetBiInfo
                           Example.noOptions None)) eq_refl) eq_refl).
Defined.

(** Entered with an empty prefix, the engine reports a failure at the document
    root with an empty breadcrumb. *)
Lemma root_failure_has_empty_breadcrumb :
  ∃ message,
    parse DatasetItemSource (RStr "unexpected") Example.rootOptions
    = Invalid [([], message)].
Proof. by exists "Expected enum". Qed.

Lemma breadcrumbs_extend_prefix_witness :
  Forall (λ e : list string * string,
            ∃ path, e.1 = breadcrumbsPrefix Example.strictOptions ++ path
                    ∧ Offending Example.strictOptions NumericalFeedbackDetailUpdate
                        (RObj (<["max" := RNum 1]> ∅)) path
                    ∧ (breadcrumbsPrefix Example.strictOptions ≠ [] → e.1 ≠ []))
    [(["response"; "min"], "Missing required key")].
Proof.
  refine (proj2 (proj1 (breadcrumbs_extend_prefix Example.environment Example.urlJoin
                          Example.runtimeType Example.runtimeVersion
                          Example.BiInformationResponse Example.TraceCountResponse
                          (Example.failing Example.notFound) GetDatasetBiInfo
                          Example.noOptions None)
                   NumericalFeedbackDetailUpdate (RObj (<["max" := RNum 1]> ∅))
                   Example.strictOptions _ _)).
  vm_compute. reflexivity.
Defined.


(* ===================================================================== *)
(** ** Further facts about the generated methods                          *)
(* ===================================================================== *)

Section RequestFacts.

Context (OpikApiEnvironment_Default : string).
Context (urlJoin : string → string → string).
Context (RUNTIME_type RUNTIME_version : string).
Context (BiInformationResponse TraceCountResponse : Schema).

Local Notation request :=
  (SystemUsage.request OpikApiEnvironment_Default urlJoin RUNTIME_type RUNTIME_version).
Local Notation schemaOf := (schemaOf BiInformationResponse TraceCountResponse).
Local Notation invoke :=
  (invoke OpikApiEnvironment_Default urlJoin RUNTIME_type RUNTIME_version
     BiInformationResponse TraceCountResponse).

(** The headers object of a request, key by key: a per-call entry, else the
    member of the literal that defines the key. *)
Lemma headers_lookup _options path requestOptions key :
  Fetcher.headers (request _options path requestOptions) !! key
  = match default ∅ (requestOptions ≫= SystemUsage.RequestOptions.headers) !! key with
    | Some v => Some (Some v)
    | None =>
        if decide ("Authorization" = key)
        then Some (Supplier.get (SystemUsage.Options.apiKey _options))
        else if decide ("X-Fern-Runtime-Version" = key) then Some (Some RUNTIME_version)
        else if decide ("X-Fern-Runtime" = key) then Some (Some RUNTIME_type)
        else if decide ("X-Fern-Language" = key) then Some (Some "JavaScript")
        else if decide ("Comet-Workspace" = key)
        then Some (Supplier.get (SystemUsage.Options.workspaceName _options))
        else None
    end.
Proof.
  unfold SystemUsage.request, SystemUsage._getCustomAuthorizationHeaders,
    objectLiteral. simpl.
  rewrite lookup_union, lookup_fmap.
  destruct (default ∅ _ !! key) as [v|]; simpl.
  { match goal with |- Some _ ∪ ?o = _ => by destruct o end. }
  rewrite (left_id None _), lookup_union, !lookup_insert, lookup_empty.
  repeat case_decide; try done.
  by destruct (Supplier.get (SystemUsage.Options.workspaceName _options)).
Qed.

(** X1: every entry of the per-call [headers] is sent as given, whatever the
    client options and whichever built-in header it collides with. *)
Theorem per_call_headers_win op _options requestOptions key value :
  default ∅ (requestOptions ≫= SystemUsage.RequestOptions.headers) !! key = Some value →
  sentHeader (request _options (pathOf op) requestOptions) key = Some value.
Proof. intros Hkey. unfold sentHeader. by rewrite headers_lookup, Hkey. Qed.

(** X2: unless the per-call headers carry an Authorization entry, the
    Authorization header is what the [apiKey] supplier resolves to; with no
    API key the header is left unset and the request is still handed to the
    executor. *)
Theorem authorization_header fetcher op _options requestOptions :
  default ∅ (requestOptions ≫= SystemUsage.RequestOptions.headers) !! "Authorization"
    = None →
  let args := request _options (pathOf op) requestOptions in
  sentHeader args "Authorization" = Supplier.get (SystemUsage.Options.apiKey _options)
  ∧ (Supplier.get (SystemUsage.Options.apiKey _options) = None →
     sentHeader args "Authorization" = None
     ∧ APIPromise.responsePromise (invoke fetcher op _options requestOptions)
       = SystemUsage.settle (pathOf op) (schemaOf op) (fetcher args)).
Proof.
  intros Hkey args.
  assert (sentHeader args "Authorization"
          = Supplier.get (SystemUsage.Options.apiKey _options)) as Hauth.
  { subst args. unfold sentHeader. rewrite headers_lookup, Hkey.
    by rewrite decide_True. }
  split; [done|]. intros Hnone. split; [by rewrite Hauth|apply invoke_settles].
Qed.

(** X3: a request carries no header beyond the five built-in ones and the
    per-call ones, and the three Fern headers have fixed values unless a
    per-call entry replaces them. *)
Theorem header_set_is_closed op _options requestOptions :
  let args := request _options (pathOf op) requestOptions in
  let perCall := default ∅ (requestOptions ≫= SystemUsage.RequestOptions.headers) in
  (∀ key,
     key ∉ ["Comet-Workspace"; "X-Fern-Language"; "X-Fern-Runtime";
            "X-Fern-Runtime-Version"; "Authorization"] →
     sentHeader args key = perCall !! key)
  ∧ (perCall !! "X-Fern-Language" = None →
     sentHeader args "X-Fern-Language" = Some "JavaScript")
  ∧ (perCall !! "X-Fern-Runtime" = None →
     sentHeader args "X-Fern-Runtime" = Some RUNTIME_type)
  ∧ (perCall !! "X-Fern-Runtime-Version" = None →
     sentHeader args "X-Fern-Runtime-Version" = Some RUNTIME_version).
Proof.
  intros args perCall. subst args perCall. unfold sentHeader.
  split; [|split; [|split]].
  - intros key Hkey. rewrite headers_lookup.
    destruct (default ∅ _ !! key) as [v|]; [done|].
    repeat case_decide; subst; try done; exfalso; apply Hkey; set_solver.
  - intros Hkey. by rewrite headers_lookup, Hkey.
  - intros Hkey. by rewrite headers_lookup, Hkey.
  - intros Hkey. by rewrite headers_lookup, Hkey.
Qed.

(** X4: the per-call [apiKey] and [workspaceName] of the request options are
    never read: two calls that differ only in them hand the same request to
    the executor and settle alike. *)
Theorem per_call_credentials_ignored fetcher op _options
    timeout retries signal hs apiKey1 workspaceName1 apiKey2 workspaceName2 :
  let ro1 := SystemUsage.RequestOptions.mk timeout retries signal apiKey1 workspaceName1 hs in
  let ro2 := SystemUsage.RequestOptions.mk timeout retries signal apiKey2 workspaceName2 hs in
  request _options (pathOf op) (Some ro1) = request _options (pathOf op) (Some ro2)
  ∧ invoke fetcher op _options (Some ro1) = invoke fetcher op _options (Some ro2)
  ∧ sentHeader (request _options (pathOf op) (Some ro1)) "Authorization"
    = match default ∅ hs !! "Authorization" with
      | Some v => Some v
      | None => Supplier.get (SystemUsage.Options.apiKey _options)
      end.
Proof.
  intros ro1 ro2. split; [reflexivity|]. split; [by destruct op|].
  unfold sentHeader. rewrite headers_lookup. simpl.
  by destruct (default ∅ hs !! "Authorization").
Qed.

(** X6: a method returns an object exactly when the executor succeeded and
    the body passed validation; the object then has [ok = true], the parsed
    body and the executor's headers unchanged. *)
Theorem returns_object_iff fetcher op _options requestOptions r :
  APIPromise.responsePromise (invoke fetcher op _options requestOptions)
    = Returned (Some r)
  ↔ ∃ b hs t,
      fetcher (request _options (pathOf op) requestOptions) = Fetcher.Success b hs
      ∧ parse (schemaOf op) b SystemUsage.responseOptions = Valid t
      ∧ r = SystemUsage.mkResponse true t hs.
Proof.
  rewrite invoke_settles. split.
  - destruct (fetcher _) as [b hs|error] eqn:Hf; simpl.
    + unfold parseOrThrow. destruct (parse _ b _) as [t|errs] eqn:Hp; simpl;
        [|discriminate].
      intros [= <-]. by exists b, hs, t.
    + intros H. repeat case_match; discriminate.
  - intros (b & hs & t & -> & Hp & ->). simpl. unfold parseOrThrow. by rewrite Hp.
Qed.

(** X7: a method raises a [ParseError] exactly when the executor succeeded
    and the body failed validation under the call-site options; the error
    carries the engine's report unchanged. *)
Theorem parse_error_iff fetcher op _options requestOptions errs :
  APIPromise.responsePromise (invoke fetcher op _options requestOptions)
    = Thrown (ParseError errs)
  ↔ ∃ b hs,
      fetcher (request _options (pathOf op) requestOptions) = Fetcher.Success b hs
      ∧ parse (schemaOf op) b SystemUsage.responseOptions = Invalid errs.
Proof.
  rewrite invoke_settles. split.
  - destruct (fetcher _) as [b hs|error] eqn:Hf; simpl.
    + unfold parseOrThrow. destruct (parse _ b _) as [t|errs'] eqn:Hp; simpl;
        [discriminate|].
      intros [= <-]. by exists b, hs.
    + intros H. repeat case_match; discriminate.
  - intros (b & hs & -> & Hp). simpl. unfold parseOrThrow. by rewrite Hp.
Qed.

(** X8: the [async] body of a method falls off its end and returns
    [undefined] exactly when the executor failed with a reason other than
    status-code, non-json, timeout and unknown; after a successful executor
    result the body never ends that way.  (What [core.APIPromise.from] makes
    of that return value is outside this statement.) *)
Theorem undefined_only_for_unmatched_reason fetcher op _options requestOptions :
  APIPromise.responsePromise (invoke fetcher op _options requestOptions)
    = Returned None
  ↔ ∃ error,
      fetcher (request _options (pathOf op) requestOptions) = Fetcher.Failure error
      ∧ Fetcher.reason error ∉ ["status-code"; "non-json"; "timeout"; "unknown"].
Proof.
  split.
  - rewrite invoke_settles.
    destruct (fetcher _) as [b hs|error] eqn:Hf.
    + simpl. unfold parseOrThrow. destruct (parse _ b _); simpl; discriminate.
    + rewrite settle_failure. intros H. exists error. split; [done|].
      intros Hin.
      repeat (apply elem_of_cons in Hin as [Hin|Hin];
              [rewrite Hin in H; simpl in H; discriminate|]).
      by apply elem_of_nil in Hin.
  - intros (error & Hf & Hreason).
    rewrite invoke_settles, Hf, settle_failure.
    rewrite !eqb_of_neq; [done|..]; intros Heq; apply Hreason; rewrite Heq;
      set_solver.
Qed.

End RequestFacts.

(* ===================================================================== *)
(** ** The generated schemas against their declared raw types             *)
(* ===================================================================== *)

Lemma enum_valid values raw opts t :
  parse (enum_ values) raw opts = Valid t
  ↔ ∃ s, raw = RStr s
         ∧ (s ∈ values ∨ allowUnrecognizedEnumValues opts = true)
         ∧ t = TEnum s.
Proof.
  unfold enum_. split.
  - destruct raw as [| | |s| |]; try discriminate. simpl. unfold knownEnumValue.
    destruct (bool_decide (s ∈ values) || allowUnrecognizedEnumValues opts) eqn:Hk;
      [|discriminate].
    intros [= <-]. exists s. split; [done|]. split; [|done].
    apply orb_true_iff in Hk as [Hk|Hk]; [left; by apply bool_decide_eq_true in Hk|by right].
  - intros (s & -> & Hs & ->). simpl. unfold knownEnumValue.
    destruct Hs as [Hs| ->]; [by rewrite bool_decide_eq_true_2|by rewrite orb_true_r].
Qed.

Lemma enum_writes_back values s opts :
  s ∈ values → serialize (enum_ values) (TEnum s) opts = Valid (RStr s).
Proof. intros Hs. simpl. unfold knownEnumValue. by rewrite bool_decide_eq_true_2. Qed.

Lemma DatasetItemSource_literals s :
  s ∈ ["manual"; "trace"; "span"; "sdk"] ↔ ∃ r, s = DatasetItemSourceRaw.wire r.
Proof.
  split.
  - intros Hin. repeat (apply elem_of_cons in Hin as [->|Hin]);
      [by exists DatasetItemSourceRaw.manual | by exists DatasetItemSourceRaw.trace
      | by exists DatasetItemSourceRaw.span | by exists DatasetItemSourceRaw.sdk
      | by apply elem_of_nil in Hin].
  - intros [[] ->]; set_solver.
Qed.

Lemma LlmAsJudgeOutputSchemaWriteType_literals s :
  s ∈ ["BOOLEAN"; "INTEGER"; "DOUBLE"]
  ↔ ∃ r, s = LlmAsJudgeOutputSchemaWriteTypeRaw.wire r.
Proof.
  split.
  - intros Hin. repeat (apply elem_of_cons in Hin as [->|Hin]);
      [by exists LlmAsJudgeOutputSchemaWriteTypeRaw.BOOLEAN
      | by exists LlmAsJudgeOutputSchemaWriteTypeRaw.INTEGER
      | by exists LlmAsJudgeOutputSchemaWriteTypeRaw.DOUBLE
      | by apply elem_of_nil in Hin].
  - intros [[] ->]; set_solver.
Qed.

Lemma FeedbackScorePublicSource_literals s :
  s ∈ ["ui"; "sdk"] ↔ ∃ r, s = FeedbackScorePublicSourceRaw.wire r.
Proof.
  split.
  - intros Hin. repeat (apply elem_of_cons in Hin as [->|Hin]);
      [by exists FeedbackScorePublicSourceRaw.ui
      | by exists FeedbackScorePublicSourceRaw.sdk
      | by apply elem_of_nil in Hin].
  - intros [[] ->]; set_solver.
Qed.

(** X9: with unrecognized enum values not allowed, each generated enum
    schema accepts exactly the string literals of the [Raw] type declared
    beside it, and keeps the literal as it is; under any options each such
    literal parses and is written back unchanged. *)
Theorem enum_schemas_match_their_raw_types keys unions prefix raw :
  let opts := mkSchemaOptions keys unions false prefix in
  (∀ t, parse DatasetItemSource raw opts = Valid t
        ↔ ∃ r, raw = RStr (DatasetItemSourceRaw.wire r)
               ∧ t = TEnum (DatasetItemSourceRaw.wire r))
  ∧ (∀ t, parse LlmAsJudgeOutputSchemaWriteType raw opts = Valid t
          ↔ ∃ r, raw = RStr (LlmAsJudgeOutputSchemaWriteTypeRaw.wire r)
                 ∧ t = TEnum (LlmAsJudgeOutputSchemaWriteTypeRaw.wire r))
  ∧ (∀ t, parse FeedbackScorePublicSource raw opts = Valid t
          ↔ ∃ r, raw = RStr (FeedbackScorePublicSourceRaw.wire r)
                 ∧ t = TEnum (FeedbackScorePublicSourceRaw.wire r))
  ∧ (∀ any r,
       parse DatasetItemSource (RStr (DatasetItemSourceRaw.wire r)) any
         = Valid (TEnum (DatasetItemSourceRaw.wire r))
       ∧ serialize DatasetItemSource (TEnum (DatasetItemSourceRaw.wire r)) any
         = Valid (RStr (DatasetItemSourceRaw.wire r))).
Proof.
  intros opts. split; [|split; [|split]].
  - intros t. unfold DatasetItemSource. rewrite enum_valid. split.
    + intros (s & -> & [Hs|Hs] & ->); [|discriminate].
      apply DatasetItemSource_literals in Hs as [r ->]. by exists r.
    + intros (r & -> & ->). eexists. split; [done|]. split; [|done].
      left. apply DatasetItemSource_literals. by exists r.
  - intros t. unfold LlmAsJudgeOutputSchemaWriteType. rewrite enum_valid. split.
    + intros (s & -> & [Hs|Hs] & ->); [|discriminate].
      apply LlmAsJudgeOutputSchemaWriteType_literals in Hs as [r ->]. by exists r.
    + intros (r & -> & ->). eexists. split; [done|]. split; [|done].
      left. apply LlmAsJudgeOutputSchemaWriteType_literals. by exists r.
  - intros t. unfold FeedbackScorePublicSource. rewrite enum_valid. split.
    + intros (s & -> & [Hs|Hs] & ->); [|discriminate].
      apply FeedbackScorePublicSource_literals in Hs as [r ->]. by exists r.
    + intros (r & -> & ->). eexists. split; [done|]. split; [|done].
      left. apply FeedbackScorePublicSource_literals. by exists r.
  - intros any r.
    assert (DatasetItemSourceRaw.wire r ∈ ["manual"; "trace"; "span"; "sdk"]) as Hin.
    { apply DatasetItemSource_literals. by exists r. }
    split.
    + apply enum_valid. eexists. split; [done|]. by split; [left|].
    + by apply enum_writes_back.
Qed.

Lemma NumericalFeedbackDetailUpdate_fields :
  NumericalFeedbackDetailUpdate
  = SObject (<["max" := (false, SNumber)]> (<["min" := (false, SNumber)]> ∅)).
Proof. reflexivity. Qed.

Lemma number_valid raw opts t :
  parse SNumber raw opts = Valid t ↔ ∃ n, raw = RNum n ∧ t = TNumber n.
Proof.
  split.
  - destruct raw; try discriminate. intros [= <-]. eauto.
  - by intros (n & -> & ->).
Qed.

(** The field results of the schema, key by key. *)
Lemma detail_results opts entries key :
  fieldResults opts parse
    (<["max" := (false, SNumber)]> (<["min" := (false, SNumber)]> ∅)) entries !! key
  = if decide (key = "max") then
      Some (match entries !! "max" with
            | Some v => parse SNumber v (descend opts "max")
            | None => failure (descend opts "max") "Missing required key"
            end)
    else if decide (key = "min") then
      Some (match entries !! "min" with
            | Some v => parse SNumber v (descend opts "min")
            | None => failure (descend opts "min") "Missing required key"
            end)
    else None.
Proof.
  rewrite lookup_fieldResults.
  destruct (decide (key = "max")) as [->|Hmax].
  { rewrite lookup_insert_eq. simpl. by destruct (entries !! "max"). }
  rewrite lookup_insert_ne by done.
  destruct (decide (key = "min")) as [->|Hmin].
  { rewrite lookup_insert_eq. simpl. by destruct (entries !! "min"). }
  by rewrite lookup_insert_ne, lookup_empty by done.
Qed.

(** X10: the [NumericalFeedbackDetailUpdate] schema accepts exactly the
    objects that carry a numeric [max] and a numeric [min] (both required,
    other keys tolerated), whatever the two numbers are: it does not ask for
    [min] to be at most [max].  The parsed fields are those two numbers. *)
Theorem numerical_feedback_detail_accepts raw opts :
  (∀ t, parse NumericalFeedbackDetailUpdate raw opts = Valid t →
        ∃ entries r extra,
          raw = RObj entries
          ∧ entries !! "max" = Some (RNum (NumericalFeedbackDetailUpdateRaw.max r))
          ∧ entries !! "min" = Some (RNum (NumericalFeedbackDetailUpdateRaw.min r))
          ∧ t = TObject (NumericalFeedbackDetailUpdateRaw.typed r) extra)
  ∧ (∀ entries r,
       raw = RObj entries →
       entries !! "max" = Some (RNum (NumericalFeedbackDetailUpdateRaw.max r)) →
       entries !! "min" = Some (RNum (NumericalFeedbackDetailUpdateRaw.min r)) →
       ∃ extra,
         parse NumericalFeedbackDetailUpdate raw opts
         = Valid (TObject (NumericalFeedbackDetailUpdateRaw.typed r) extra)).
Proof.
  rewrite NumericalFeedbackDetailUpdate_fields.
  assert (Htyped : ∀ entries r,
    entries !! "max" = Some (RNum (NumericalFeedbackDetailUpdateRaw.max r)) →
    entries !! "min" = Some (RNum (NumericalFeedbackDetailUpdateRaw.min r)) →
    omap validValue
      (fieldResults opts parse
         (<["max" := (false, SNumber)]> (<["min" := (false, SNumber)]> ∅)) entries)
    = NumericalFeedbackDetailUpdateRaw.typed r).
  { intros entries r Hmax Hmin. apply map_eq. intros key.
    rewrite lookup_omap, detail_results. unfold NumericalFeedbackDetailUpdateRaw.typed.
    destruct (decide (key = "max")) as [->|Hkmax].
    { by rewrite Hmax, lookup_insert_eq. }
    rewrite lookup_insert_ne by done.
    destruct (decide (key = "min")) as [->|Hkmin].
    { by rewrite Hmin, lookup_insert_eq. }
    by rewrite lookup_insert_ne, lookup_empty by done. }
  split.
  - intros t Hparse. destruct raw as [| | | | |entries]; [discriminate..|].
    rewrite parse_object in Hparse.
    destruct (gatherFields _) as [parsed|] eqn:Hg; [|discriminate].
    injection Hparse as <-. apply gatherFields_valid in Hg as [Hvalid ->].
    pose proof (Hvalid "max") as Hmax. pose proof (Hvalid "min") as Hmin.
    rewrite detail_results in Hmax, Hmin. simpl in Hmax, Hmin.
    specialize (Hmax _ eq_refl). specialize (Hmin _ eq_refl).
    destruct (entries !! "max") as [vmax|] eqn:Hemax; [|discriminate].
    destruct (entries !! "min") as [vmin|] eqn:Hemin; [|discriminate].
    apply isValid_true in Hmax as [tmax Hmax]. apply isValid_true in Hmin as [tmin Hmin].
    apply number_valid in Hmax as (nmax & -> & _).
    apply number_valid in Hmin as (nmin & -> & _).
    exists entries, (NumericalFeedbackDetailUpdateRaw.mk nmax nmin). eexists.
    split; [done|]. split; [done|]. split; [done|].
    f_equal. by apply Htyped.
  - intros entries r -> Hmax Hmin. rewrite parse_object.
    rewrite gatherFields_all_valid.
    + eexists. do 2 f_equal. by apply Htyped.
    + intros key result. rewrite detail_results.
      repeat case_decide; [rewrite Hmax|rewrite Hmin|done]; by intros [= <-].
Qed.

(* ===================================================================== *)
(** ** Facts about the end-to-end test workflow                           *)
(* ===================================================================== *)




(* ===================================================================== *)
(** ** Further worked instances                                           *)
(* ===================================================================== *)

(** Client options with an API key, and request options whose headers
    replace two built-in headers. *)
Lemma per_call_headers_win_witness :
  sentHeader
    (Example.request Example.teamOptions (pathOf GetTracesBiInfo)
       (Some (Example.requestOptions None None None
                (Some {[ "X-Fern-Language" := "TypeScript" ]}))))
    "X-Fern-Language"
  = Some "TypeScript".
Proof.
  refine (per_call_headers_win Example.environment Example.urlJoin
            Example.runtimeType Example.runtimeVersion GetTracesBiInfo
            Example.teamOptions _ "X-Fern-Language" "TypeScript" _).
  vm_compute. reflexivity.
Defined.

Lemma authorization_header_witness :
  sentHeader (Example.request Example.noOptions (pathOf GetDatasetBiInfo) None)
    "Authorization" = None.
Proof.
  refine (proj1 (proj2 (authorization_header Example.environment Example.urlJoin
                          Example.runtimeType Example.runtimeVersion
                          Example.BiInformationResponse Example.TraceCountResponse
                          (Example.failing Example.notFound) GetDatasetBiInfo
                          Example.noOptions None _) eq_refl)).
  vm_compute. reflexivity.
Defined.

Lemma header_set_is_closed_witness :
  sentHeader (Example.request Example.teamOptions (pathOf GetDatasetBiInfo) None)
    "X-Request-Id" = None
  ∧ sentHeader (Example.request Example.teamOptions (pathOf GetDatasetBiInfo) None)
      "X-Fern-Runtime" = Some "node".
Proof.
  destruct (header_set_is_closed Example.environment Example.urlJoin
              Example.runtimeType Example.runtimeVersion GetDatasetBiInfo
              Example.teamOptions None) as (Hother & _ & Hruntime & _).
  split.
  - refine (Hother "X-Request-Id" _). intros Hin.
    repeat (apply elem_of_cons in Hin as [Hin|Hin]; [discriminate|]).
    by apply elem_of_nil in Hin.
  - exact (Hruntime eq_refl).
Defined.

(** An executor that answers with a body of the example response schema. *)
Lemma returns_object_iff_witness :
  APIPromise.responsePromise
    (Example.call
       (λ _, Fetcher.Success
               (RObj {[ "workspace" := RStr "default"; "count" := RNum 3 ]}) ∅)
       GetDatasetBiInfo Example.noOptions None)
  = Returned
      (Some (SystemUsage.mkResponse true
               (TObject {[ "workspace" := TString "default"; "count" := TNumber 3 ]} ∅)
               ∅)).
Proof.
  refine (proj2 (returns_object_iff Example.environment Example.urlJoin
                   Example.runtimeType Example.runtimeVersion
                   Example.BiInformationResponse Example.TraceCountResponse
                   _ GetDatasetBiInfo Example.noOptions None _) _).
  eexists _, _, _. split; [reflexivity|]. split; [vm_compute; reflexivity|reflexivity].
Defined.

Lemma parse_error_iff_witness :
  ∃ errs,
    APIPromise.responsePromise
      (Example.call (λ _, Fetcher.Success (RStr "<html></html>") ∅)
         GetDatasetBiInfo Example.noOptions None)
    = Thrown (ParseError errs).
Proof.
  eexists.
  refine (proj2 (parse_error_iff Example.environment Example.urlJoin
                   Example.runtimeType Example.runtimeVersion
                   Example.BiInformationResponse Example.TraceCountResponse
                   _ GetDatasetBiInfo Example.noOptions None _) _).
  eexists _, _. split; reflexivity.
Defined.

Lemma undefined_only_for_unmatched_reason_witness :
  ∃ error,
    Example.failing Fetcher.cancelledError
      (Example.request Example.noOptions (pathOf GetTracesBiInfo) None)
    = Fetcher.Failure error
    ∧ Fetcher.reason error ∉ ["status-code"; "non-json"; "timeout"; "unknown"].
Proof.
  refine (proj1 (undefined_only_for_unmatched_reason Example.environment
                   Example.urlJoin Example.runtimeType Example.runtimeVersion
                   Example.BiInformationResponse Example.TraceCountResponse
                   (Example.failing Fetcher.cancelledError) GetTracesBiInfo
                   Example.noOptions None) _).
  reflexivity.
Defined.

Lemma enum_schemas_match_their_raw_types_witness :
  ∃ r, RStr "span" = RStr (DatasetItemSourceRaw.wire r)
       ∧ TEnum "span" = TEnum (DatasetItemSourceRaw.wire r).
Proof.
  refine (proj1 (proj1 (enum_schemas_match_their_raw_types strict false ["response"]
                          (RStr "span")) (TEnum "span")) _).
  reflexivity.
Defined.

Lemma numerical_feedback_detail_accepts_witness :
  ∃ extra,
    parse NumericalFeedbackDetailUpdate
      (RObj (NumericalFeedbackDetailUpdateRaw.wire
               (NumericalFeedbackDetailUpdateRaw.mk 1 5)))
      Example.strictOptions
    = Valid (TObject (NumericalFeedbackDetailUpdateRaw.typed
                        (NumericalFeedbackDetailUpdateRaw.mk 1 5)) extra).
Proof.
  exact (proj2 (numerical_feedback_detail_accepts
                  (RObj (NumericalFeedbackDetailUpdateRaw.wire
                           (NumericalFeedbackDetailUpdateRaw.mk 1 5)))
                  Example.strictOptions)
           (NumericalFeedbackDetailUpdateRaw.wire
              (NumericalFeedbackDetailUpdateRaw.mk 1 5))
           (NumericalFeedbackDetailUpdateRaw.mk 1 5) eq_refl eq_refl eq_refl).
Defined.


